(** * A shallow embedding of the reverse proxy of package [revert]

    The development follows the Go source: the handler [ServeHTTP], the
    director built by [newSingleHostReverseProxy], [singleJoiningSlash],
    [copyHeader] and the [maxLatencyWriter] with its [flushLoop].  The
    operations of Go's standard library that the handler calls
    (strings, bytes, net/textproto, net, io) are modelled in modules of
    their own, one per package. *)

From Stdlib Require Import ZArith NArith Lia Bool List Ascii String.
From Stdlib Require Import Strings.Byte.
From stdpp Require Import base option list relations gmap strings.

Local Open Scope string_scope.
Local Open Scope list_scope.

(* ===================================================================== *)
(** ** Go strings

    A Go string is a sequence of bytes, as a [string] of Rocq is.  [s[i:j]]
    is [slice s i j]. *)
(* ===================================================================== *)

Module Go_strings.

Definition len (s : string) : nat := String.length s.

(** [s[i:j]] *)
Definition slice (s : string) (i j : nat) : string := substring i (j - i) s.

(** [s[i:]] *)
Definition slice_from (s : string) (i : nat) : string := slice s i (len s).

(** [func HasPrefix(s, prefix string) bool]:
    [len(s) >= len(prefix) && s[0:len(prefix)] == prefix] *)
Definition HasPrefix (s prefix : string) : bool :=
  (len prefix <=? len s)%nat && String.eqb (slice s 0 (len prefix)) prefix.

(** [func HasSuffix(s, suffix string) bool]:
    [len(s) >= len(suffix) && s[len(s)-len(suffix):] == suffix] *)
Definition HasSuffix (s suffix : string) : bool :=
  (len suffix <=? len s)%nat
  && String.eqb (slice_from s (len s - len suffix)) suffix.

(** [strings.LastIndex(s, string(c))] and [strings.Index] for one byte,
    as [option]: [None] is Go's [-1]. *)
Fixpoint IndexByte (s : string) (c : ascii) : option nat :=
  match s with
  | EmptyString => None
  | String d s' =>
      if Ascii.eqb d c then Some 0
      else match IndexByte s' c with Some i => Some (S i) | None => None end
  end.

Fixpoint LastIndexByte (s : string) (c : ascii) : option nat :=
  match s with
  | EmptyString => None
  | String d s' =>
      match LastIndexByte s' c with
      | Some i => Some (S i)
      | None => if Ascii.eqb d c then Some 0 else None
      end
  end.

End Go_strings.

(* ===================================================================== *)
(** ** net/textproto and net/http: header maps

    [http.Header] is [map[string][]string].  A key bound to a nil slice
    behaves, for every operation the proxy uses, like an absent key; such
    a binding is represented by the absent key, so a bound key with the
    value [[]] stands for an empty slice that is not nil. *)
(* ===================================================================== *)

Module Go_textproto.

Definition is_lower (c : ascii) : bool :=
  (nat_of_ascii "a" <=? nat_of_ascii c)%nat && (nat_of_ascii c <=? nat_of_ascii "z")%nat.
Definition is_upper (c : ascii) : bool :=
  (nat_of_ascii "A" <=? nat_of_ascii c)%nat && (nat_of_ascii c <=? nat_of_ascii "Z")%nat.
(** [v + 'A' - 'a'] and [v + 'a' - 'A'] *)
Definition to_upper (c : ascii) : ascii :=
  ascii_of_nat (nat_of_ascii c + nat_of_ascii "A" - nat_of_ascii "a").
Definition to_lower (c : ascii) : ascii :=
  ascii_of_nat (nat_of_ascii c + nat_of_ascii "a" - nat_of_ascii "A").

(** The rewriting loop of [CanonicalMIMEHeaderKey]: upper case for the
    first letter and for a letter after a dash, lower case elsewhere. *)
Fixpoint canonicalize (upper : bool) (a : string) : string :=
  match a with
  | EmptyString => EmptyString
  | String v a' =>
      let v' :=
        if upper && is_lower v then to_upper v
        else if negb upper && is_upper v then to_lower v
        else v in
      String v' (canonicalize (Ascii.eqb v "-") a')
  end.

(** [func CanonicalMIMEHeaderKey(s string) string].  The function first
    checks whether [s] is canonical already and returns it as it is;
    the rewriting loop returns the same string in that case. *)
Definition CanonicalMIMEHeaderKey (s : string) : string := canonicalize true s.

Abbreviation Header := (gmap string (list string)).

(** [h[key]], the nil slice read as the empty list *)
Definition index (h : Header) (key : string) : list string :=
  default [] (h !! key).

(** [func (h MIMEHeader) Add(key, value string)] *)
Definition Add (h : Header) (key value : string) : Header :=
  let key := CanonicalMIMEHeaderKey key in
  <[key := index h key ++ [value]]> h.

(** [func (h MIMEHeader) Set(key, value string)] *)
Definition Set_ (h : Header) (key value : string) : Header :=
  <[CanonicalMIMEHeaderKey key := [value]]> h.

(** [func (h MIMEHeader) Get(key string) string] *)
Definition Get (h : Header) (key : string) : string :=
  match index h (CanonicalMIMEHeaderKey key) with
  | [] => ""
  | v :: _ => v
  end.

(** [func (h MIMEHeader) Del(key string)] *)
Definition Del (h : Header) (key : string) : Header :=
  delete (CanonicalMIMEHeaderKey key) h.

End Go_textproto.

(* ===================================================================== *)
(** ** net: splitting host and port *)
(* ===================================================================== *)

Module Go_net.
Import Go_strings.

(** [s[i]] *)
Definition at_ (s : string) (i : nat) : option ascii := String.get i s.

(** [func SplitHostPort(hostport string) (host, port string, err error)];
    [None] is a non-nil [err]. *)
Definition SplitHostPort (hostport : string) : option (string * string) :=
  (* The port starts after the last colon. *)
  match LastIndexByte hostport ":" with
  | None => None                               (* missing port in address *)
  | Some i =>
      let host := slice hostport 0 i in
      let port := slice_from hostport (i + 1) in
      (* Can put brackets around host ... *)
      if (0 <? len host)%nat
         && bool_decide (at_ host 0 = Some "["%char)
         && bool_decide (at_ host (len host - 1) = Some "]"%char)
      then Some (slice host 1 (len host - 1), port)
      else
        (* ... but if there are no brackets, no colons. *)
        match IndexByte host ":" with
        | Some _ => None                       (* too many colons in address *)
        | None => Some (host, port)
        end
  end.

End Go_net.

(* ===================================================================== *)
(** ** unicode/utf8 and bytes *)
(* ===================================================================== *)

Module Go_utf8.

Local Open Scope N_scope.

Definition cont (c : N) : bool := (0x80 <=? c) && (c <? 0xC0).

(** The width that [utf8.DecodeRune(p)] returns: the length of the
    encoding of the first rune of [p], [1] for an invalid or short
    encoding, [0] for the empty slice. *)
Definition DecodeRune_size (p : list byte) : nat :=
  match map Byte.to_N p with
  | [] => 0%nat
  | c0 :: p1 =>
      if c0 <? 0xC0 then 1%nat           (* one byte, or a stray continuation *)
      else match p1 with
      | [] => 1%nat
      | c1 :: p2 =>
          if negb (cont c1) then 1%nat
          else if c0 <? 0xE0 then
            let r := N.lor (N.shiftl (N.land c0 0x1F) 6) (N.land c1 0x3F) in
            if r <=? 0x7F then 1%nat else 2%nat
          else match p2 with
          | [] => 1%nat
          | c2 :: p3 =>
              if negb (cont c2) then 1%nat
              else if c0 <? 0xF0 then
                let r := N.lor (N.shiftl (N.land c0 0x0F) 12)
                           (N.lor (N.shiftl (N.land c1 0x3F) 6) (N.land c2 0x3F)) in
                if r <=? 0x7FF then 1%nat
                else if (0xD800 <=? r) && (r <=? 0xDFFF) then 1%nat
                else 3%nat
              else match p3 with
              | [] => 1%nat
              | c3 :: _ =>
                  if negb (cont c3) then 1%nat
                  else if c0 <? 0xF8 then
                    let r := N.lor (N.shiftl (N.land c0 0x07) 18)
                               (N.lor (N.shiftl (N.land c1 0x3F) 12)
                                  (N.lor (N.shiftl (N.land c2 0x3F) 6)
                                     (N.land c3 0x3F))) in
                    if (r <=? 0xFFFF) || (0x10FFFF <? r) then 1%nat else 4%nat
                  else 1%nat
              end
          end
      end
  end.

(** [func RuneCount(p []byte) int]: one rune per step, the position
    advanced by the rune's width; [skip] counts the bytes of the
    current rune that are still to pass. *)
Fixpoint RuneCount_from (skip : nat) (p : list byte) : nat :=
  match p with
  | [] => 0%nat
  | _ :: p' =>
      match skip with
      | S k => RuneCount_from k p'
      | O => S (RuneCount_from (DecodeRune_size p - 1) p')
      end
  end.

Definition RuneCount (p : list byte) : nat := RuneCount_from 0 p.

End Go_utf8.

Module Go_bytes.

(** [bytes.Equal(s[0:len(sep)], sep)], false when [s] is shorter *)
Fixpoint HasPrefix (s sep : list byte) {struct sep} : bool :=
  match sep, s with
  | [], _ => true
  | _ :: _, [] => false
  | c :: sep', d :: s' => Byte.eqb c d && HasPrefix s' sep'
  end.

(** [func Index(s, sep []byte) int]: the first [i] with
    [s[i:i+len(sep)] == sep]; [None] is [-1]. *)
Fixpoint Index (s sep : list byte) : option nat :=
  if HasPrefix s sep then Some 0
  else match s with
       | [] => None
       | _ :: s' => S <$> Index s' sep
       end.

(** The loop of [Count] for a separator that is not empty: at a
    position where [sep] starts the count goes up and the position
    moves past it ([skip] counts the bytes still to pass), elsewhere
    the position moves by one. *)
Fixpoint Count_from (skip : nat) (s sep : list byte) : nat :=
  match s with
  | [] => 0
  | _ :: s' =>
      match skip with
      | S k => Count_from k s' sep
      | O => if HasPrefix s sep then S (Count_from (length sep - 1) s' sep)
             else Count_from 0 s' sep
      end
  end.

(** [func Count(s, sep []byte) int] *)
Definition Count (s sep : list byte) : nat :=
  match sep with
  | [] => Go_utf8.RuneCount s + 1
  | _ :: _ => Count_from 0 s sep
  end.

(** The loop [for i := 0; i < n; i++] of [Replace], on [rest = s[start:]];
    the result is what the loop and the final copy write to [t]. *)
Fixpoint Replace_loop (old new : list byte) (n i : nat) (rest : list byte)
  : list byte :=
  match n with
  | O => rest                                     (* copy(t[w:], s[start:]) *)
  | S n' =>
      let j :=
        match old with
        | [] => if (0 <? i)%nat then Go_utf8.DecodeRune_size rest else 0
        | _ :: _ => default 0 (Index rest old)
        end in
      take j rest ++ new
        ++ Replace_loop old new n' (S i) (drop (j + length old) rest)
  end.

(** [func Replace(s, old, new []byte, n int) []byte] *)
Definition Replace (s old new : list byte) (n : Z) : list byte :=
  let m := if (n =? 0)%Z then 0 else Count s old in
  if (m =? 0)%nat then s
  else
    let n := if (n <? 0)%Z || (Z.of_nat m <? n)%Z then m else Z.to_nat n in
    Replace_loop old new n 0 s.

End Go_bytes.

(* ===================================================================== *)
(** ** net/url and net/http: the values the proxy handles

    A [*url.URL] and a header map are objects in a store and are named by
    a reference; an [http.Request] struct holds such references, so that
    the shallow copy [*outreq = *req] shares both objects with [req].
    Only the fields that the proxy reads or writes are kept. *)
(* ===================================================================== *)

Abbreviation ref := nat.

Module URL.
Record URL := mk {
  Scheme : string;
  Host : string;
  RawPath : string;            (* /path[?query] *)
  Path : string;               (* /path *)
  RawQuery : string            (* query *)
}.
Definition with_Scheme (v : string) (u : URL) : URL :=
  mk v (Host u) (RawPath u) (Path u) (RawQuery u).
Definition with_Host (v : string) (u : URL) : URL :=
  mk (Scheme u) v (RawPath u) (Path u) (RawQuery u).
Definition with_RawPath (v : string) (u : URL) : URL :=
  mk (Scheme u) (Host u) v (Path u) (RawQuery u).
Definition with_Path (v : string) (u : URL) : URL :=
  mk (Scheme u) (Host u) (RawPath u) v (RawQuery u).
Definition with_RawQuery (v : string) (u : URL) : URL :=
  mk (Scheme u) (Host u) (RawPath u) (Path u) v.
End URL.
Abbreviation URL := URL.URL.

Module Request.
Record Request := mk {
  Method : string;
  URL : ref;                   (* *url.URL *)
  Proto : string;
  ProtoMajor : Z;
  ProtoMinor : Z;
  Header : ref;                (* http.Header, a map *)
  Close : bool;
  Host : string;
  RemoteAddr : string
}.
Definition with_Proto (v : string) (major minor : Z) (r : Request) : Request :=
  mk (Method r) (URL r) v major minor (Header r) (Close r) (Host r) (RemoteAddr r).
Definition with_Header (v : ref) (r : Request) : Request :=
  mk (Method r) (URL r) (Proto r) (ProtoMajor r) (ProtoMinor r) v (Close r)
     (Host r) (RemoteAddr r).
Definition with_Close (v : bool) (r : Request) : Request :=
  mk (Method r) (URL r) (Proto r) (ProtoMajor r) (ProtoMinor r) (Header r) v
     (Host r) (RemoteAddr r).
Definition with_Host (v : string) (r : Request) : Request :=
  mk (Method r) (URL r) (Proto r) (ProtoMajor r) (ProtoMinor r) (Header r)
     (Close r) v (RemoteAddr r).
End Request.
Abbreviation Request := Request.Request.

(** The body of a response is a reader: [pending] are the chunks that the
    reads still to come return, in order, before the end of the stream. *)
Record Reader := mkReader {
  pending : list (list byte);
  closed : bool
}.

Module Response.
Record Response := mk {
  StatusCode : Z;
  Header : Go_textproto.Header;
  Body : option (list (list byte))      (* [None] is a nil Body *)
}.
End Response.
Abbreviation Response := Response.Response.

(** The objects that requests refer to. *)
Record Store := mkStore {
  hdrs : list Go_textproto.Header;
  urls : list URL
}.

(** [http.RoundTripper]: [RoundTrip(outreq)] answers with a response or
    with an error ([None]); it reads the request and the objects the
    request refers to. *)
Definition RoundTripper : Type := Store → Request → option Response.

(** The client side, [http.ResponseWriter]: the header map [rw.Header()],
    the status line once it is written, the body bytes that the
    connection has accepted; [rw_room] is the number of bytes that the
    connection still accepts before a write fails ([None]: no limit), and
    [rw_flusher] says whether the writer is an [http.Flusher] as well. *)
Record ResponseWriter := mkRW {
  rw_header : Go_textproto.Header;
  rw_status : option Z;
  rw_body : list byte;
  rw_room : option nat;
  rw_flusher : bool
}.

(** The periodic flush task of a [maxLatencyWriter]: not started, in its
    loop, returned after a receive on [done], or ended by the panic of
    [time.NewTicker], which refuses a duration that is not positive. *)
Inductive Task := NotStarted | Running | Stopped | Crashed.

(** The state that a request cycle runs in.  [DefaultTransport] is the
    variable of package http.  [range_order] is the order in which a
    [range] loop walks a map, which Go leaves open; [stop_received] is
    the scheduler's part in a send on the channel [done]: whether the
    flush task is there to receive it.  [sent] lists the requests handed
    to the transport, [body] is the body of the backend response. *)
Record World := mkWorld {
  store : Store;
  DefaultTransport : RoundTripper;
  range_order : Go_textproto.Header → list (string * list string);
  stop_received : bool;
  rw : ResponseWriter;
  sent : list Request;
  body : option Reader;
  task : Task
}.

Definition with_store (v : Store) (w : World) : World :=
  mkWorld v (DefaultTransport w) (range_order w) (stop_received w) (rw w)
    (sent w) (body w) (task w).
Definition with_rw (v : ResponseWriter) (w : World) : World :=
  mkWorld (store w) (DefaultTransport w) (range_order w) (stop_received w) v
    (sent w) (body w) (task w).
Definition with_sent (v : list Request) (w : World) : World :=
  mkWorld (store w) (DefaultTransport w) (range_order w) (stop_received w) (rw w)
    v (body w) (task w).
Definition with_body (v : option Reader) (w : World) : World :=
  mkWorld (store w) (DefaultTransport w) (range_order w) (stop_received w) (rw w)
    (sent w) v (task w).
Definition with_task (v : Task) (w : World) : World :=
  mkWorld (store w) (DefaultTransport w) (range_order w) (stop_received w) (rw w)
    (sent w) (body w) v.

(* ===================================================================== *)
(** ** The monad of a handler: state, and the ways a handler stops *)
(* ===================================================================== *)

(** A handler stops by [return], by a run-time panic, or it blocks for
    ever. *)
Inductive Exit := Returned | Panicked | Blocked.

Inductive Result (A : Type) :=
| Next (a : A) (w : World)
| Halt (e : Exit) (w : World).
Arguments Next {A} a w.
Arguments Halt {A} e w.

Definition M (A : Type) : Type := World → Result A.

#[global] Instance M_ret : MRet M := λ A a w, Next a w.
#[global] Instance M_bind : MBind M := λ A B k m w,
  match m w with
  | Next a w' => k a w'
  | Halt e w' => Halt e w'
  end.

(** Go's [return] in the middle of the handler, and a panic *)
Definition return_ {A : Type} : M A := λ w, Halt Returned w.
Definition panic {A : Type} : M A := λ w, Halt Panicked w.
Definition block {A : Type} : M A := λ w, Halt Blocked w.

Definition get : M World := λ w, Next w w.
Definition modify (f : World → World) : M unit := λ w, Next tt (f w).

(** The outcome of a whole handler: falling off the end is a return. *)
Definition run (m : M unit) (w : World) : Exit * World :=
  match m w with
  | Next _ w' => (Returned, w')
  | Halt e w' => (e, w')
  end.

(* ===================================================================== *)
(** ** The path join of the director *)
(* ===================================================================== *)

Import Go_strings.

(** [func singleJoiningSlash(a, b string) string] *)
Definition singleJoiningSlash (a b : string) : string :=
  let aslash := HasSuffix a "/" in
  let bslash := HasPrefix b "/" in
  if aslash && bslash then a +:+ slice_from b 1
  else if negb aslash && negb bslash then a +:+ "/" +:+ b
  else a +:+ b.

(* ===================================================================== *)
(** ** Operations on the store and on the client side *)
(* ===================================================================== *)

Import Go_textproto.

(** Reading a map through its reference: a nil map reads as empty. *)
Definition load_header (r : ref) : M Header := λ w,
  Next (default ∅ (hdrs (store w) !! r)) w.

(** Writing an entry of a map through its reference: on a nil map this
    is a run-time panic. *)
Definition update_header (r : ref) (f : Header → Header) : M unit := λ w,
  match hdrs (store w) !! r with
  | Some h =>
      Next tt (with_store (mkStore (<[r := f h]> (hdrs (store w)))
                                   (urls (store w))) w)
  | None => Halt Panicked w
  end.

(** [make(http.Header)]: a new, empty map. *)
Definition make_header : M ref := λ w,
  Next (length (hdrs (store w)))
       (with_store (mkStore (hdrs (store w) ++ [∅]) (urls (store w))) w).

(** A field of [*u]: a nil pointer panics. *)
Definition load_url (r : ref) : M URL := λ w,
  match urls (store w) !! r with
  | Some u => Next u w
  | None => Halt Panicked w
  end.

Definition update_url (r : ref) (f : URL → URL) : M unit := λ w,
  match urls (store w) !! r with
  | Some u =>
      Next tt (with_store (mkStore (hdrs (store w))
                                   (<[r := f u]> (urls (store w)))) w)
  | None => Halt Panicked w
  end.

(** [transport.RoundTrip(outreq)] *)
Definition RoundTrip (t : RoundTripper) (outreq : Request)
  : M (option Response) := λ w,
  let res := t (store w) outreq in
  let b := match res with
           | Some r => (λ c, mkReader c false) <$> Response.Body r
           | None => None
           end in
  Next res (with_body b (with_sent (sent w ++ [outreq]) w)).

(** [rw.WriteHeader(code)]: the first call writes the status line. *)
Definition rw_WriteHeader (code : Z) (c : ResponseWriter) : ResponseWriter :=
  match rw_status c with
  | Some _ => c
  | None => mkRW (rw_header c) (Some code) (rw_body c) (rw_room c) (rw_flusher c)
  end.

Definition WriteHeader (code : Z) : M unit :=
  modify (λ w, with_rw (rw_WriteHeader code (rw w)) w).

(** [rw.Write(p)]: the status line is written first if it was not (200);
    the connection takes the bytes it has room for, and the write fails
    when it does not take them all.  The boolean is [err == nil]. *)
Definition rw_Write (p : list byte) (c : ResponseWriter)
  : ResponseWriter * bool :=
  let c := rw_WriteHeader 200 c in
  let n := match rw_room c with
           | None => length p
           | Some room => length p `min` room
           end in
  (mkRW (rw_header c) (rw_status c) (rw_body c ++ take n p)
        ((λ room, room - n) <$> rw_room c) (rw_flusher c),
   bool_decide (n = length p)).

(** [copyHeader(rw.Header(), ...)] works on the map of the writer. *)
Definition update_rw_header (f : Header → Header) : M unit :=
  modify (λ w, let c := rw w in
               with_rw (mkRW (f (rw_header c)) (rw_status c) (rw_body c)
                             (rw_room c) (rw_flusher c)) w).

(** The writer [dst] of the body relay: the client writer itself, or a
    [maxLatencyWriter] around it, with its field [latency]. *)
Inductive Writer := to_rw | to_maxLatencyWriter (latency : Z).

(** [go m.flushLoop()]: the new goroutine first sets up its ticker,
    [time.NewTicker(time.Duration(m.latency))], which panics unless the
    duration is positive; with a ticker it enters its loop. *)
Definition go_flushLoop (latency : Z) : Task :=
  if (0 <? latency)%Z then Running else Crashed.

(** [func (m *maxLatencyWriter) Write(p []byte) (n int, err error)],
    as the copying goroutine sees it: the first write starts the flush
    task; a failed write sends on [done], and the send completes only if
    the flush task is in its loop and receives it. *)
Definition maxLatencyWriter_Write (latency : Z) (p : list byte) : M bool :=
  w ← get;
  (match task w with
   | NotStarted => modify (with_task (go_flushLoop latency))
   | _ => mret tt
   end);;
  w ← get;
  let '(c, ok) := rw_Write p (rw w) in             (* m.dst.Write(p) *)
  modify (with_rw c);;
  if ok then mret true
  else                                             (* m.done <- true *)
    w ← get;
    match task w with
    | Running =>
        if stop_received w then modify (with_task Stopped);; mret false
        else block
    | _ => block
    end.

Definition Write (dst : Writer) (p : list byte) : M bool :=
  match dst with
  | to_rw =>
      w ← get;
      let '(c, ok) := rw_Write p (rw w) in
      modify (with_rw c);; mret ok
  | to_maxLatencyWriter latency => maxLatencyWriter_Write latency p
  end.

(* ===================================================================== *)
(** ** io *)
(* ===================================================================== *)

Module Go_io.

(** One [src.Read(buf)] of the response body: the next chunk. *)
Definition set_pending (chunks : list (list byte)) : M unit :=
  modify (λ w, with_body ((λ r, mkReader chunks (closed r)) <$> body w) w).

(** The loop of [io.Copy(dst, res.Body)]: a chunk that was read is
    written; a failed write ends the copy, as the end of the stream
    does. *)
Fixpoint Copy_loop (dst : Writer) (chunks : list (list byte)) : M unit :=
  match chunks with
  | [] => mret tt                                  (* er == EOF *)
  | c :: rest =>
      set_pending rest;;                           (* nr, er := src.Read(buf) *)
      if (0 <? length c)%nat then
        ok ← Write dst c;
        if ok : bool then Copy_loop dst rest else mret tt
      else Copy_loop dst rest
  end.

Definition Copy (dst : Writer) : M unit :=
  w ← get;
  match body w with
  | Some r => Copy_loop dst (pending r)
  | None => panic
  end.

(** [io.Copy(buf, res.Body)] into a [bytes.Buffer]: everything up to the
    end of the stream. *)
Definition ReadAll : M (list byte) :=
  w ← get;
  match body w with
  | Some r => set_pending [];; mret (concat (pending r))
  | None => panic
  end.

(** [io.Copy(dst, bytes.NewBuffer(b))]: the buffer writes what it holds,
    if it holds anything, in one [Write]. *)
Definition Copy_buffer (dst : Writer) (b : list byte) : M unit :=
  if (0 <? length b)%nat then Write dst b;; mret tt else mret tt.

End Go_io.

(* ===================================================================== *)
(** ** The reverse proxy *)
(* ===================================================================== *)

(** [type ReverseProxy struct].  [Director] works on the request struct
    it is given and on the objects the struct refers to; [None] is a
    panic. *)
Record ReverseProxy := mkProxy {
  Director : Request → Store → option (Request * Store);
  Transport : option RoundTripper;
  FlushInterval : Z;
  DomainProxy : string;
  Domain : string;
  forbiddens : list string
}.

(** The assignments of the closure [director] of
    [newSingleHostReverseProxy(target)], on the value of [*req.URL]. *)
Definition director_assign (target u : URL) : URL :=
  let u := URL.with_Scheme (URL.Scheme target) u in
  let u := URL.with_Host (URL.Host target) u in
  let u := URL.with_Path (singleJoiningSlash (URL.Path target) (URL.Path u)) u in
  let u :=
    let q := URL.RawQuery u in
    if negb (String.eqb q "") then URL.with_RawPath (URL.Path u +:+ "?" +:+ q) u
    else URL.with_RawPath (URL.Path u) u in
  URL.with_RawQuery (URL.RawQuery target) u.

(** The closure itself: it works through the pointer [req.URL]. *)
Definition director (target : URL) (req : Request) (σ : Store)
  : option (Request * Store) :=
  u ← urls σ !! Request.URL req;
  Some (req, mkStore (hdrs σ)
               (<[Request.URL req := director_assign target u]> (urls σ))).

(** [func newSingleHostReverseProxy(target *url.URL) *ReverseProxy] *)
Definition newSingleHostReverseProxy (target : URL) : ReverseProxy :=
  mkProxy (director target) None 0 "" "" [].

(** [func (p *ReverseProxy) Forbidden(prefix string)] *)
Definition Forbidden (p : ReverseProxy) (prefix : string) : ReverseProxy :=
  mkProxy (Director p) (Transport p) (FlushInterval p) (DomainProxy p)
          (Domain p) (forbiddens p ++ [prefix]).

(** [func copyHeader(dst, src http.Header)], [range] being the order of
    the walk over [src]. *)
Definition copyHeader (range : Header → list (string * list string))
    (dst src : Header) : Header :=
  foldl (λ dst '(k, vv), foldl (λ dst v, Add dst k v) dst vv) dst (range src).

(** [p.Director(outreq)] *)
Definition call_Director (p : ReverseProxy) (outreq : Request) : M Request :=
  λ w, match Director p outreq (store w) with
       | Some (outreq', σ) => Next outreq' (with_store σ w)
       | None => Halt Panicked w
       end.

(** The loop over [p.forbiddens] for a redirect to [loc]. *)
Fixpoint scan_forbiddens (loc : string) (fs : list string) : M unit :=
  match fs with
  | [] => mret tt
  | forbidden :: fs' =>
      if Go_strings.HasPrefix loc forbidden then
        WriteHeader 404;; return_
      else scan_forbiddens loc fs'
  end.

(** [ServeHTTP], lines 130 to 154: the outbound request. *)
Definition outbound_request (p : ReverseProxy) (req : Request) : M Request :=
  let outreq := req in               (* includes shallow copies of maps *)

  outreq ← call_Director p outreq;
  let outreq := Request.with_Proto "HTTP/1.1" 1 1 outreq in
  let outreq := Request.with_Close false outreq in

  h ← load_header (Request.Header outreq);
  outreq ←
    (if negb (String.eqb (Get h "Connection") "") then
       r ← make_header;
       let outreq := Request.with_Header r outreq in
       src ← load_header (Request.Header req);
       w ← get;
       update_header r (λ dst, copyHeader (range_order w) dst src);;
       update_header r (λ dst, Del dst "Connection");;
       mret outreq
     else mret outreq);

  match Go_net.SplitHostPort (Request.RemoteAddr req) with
  | Some (clientIp, _) =>
      update_header (Request.Header outreq) (λ h, Set_ h "X-Forwarded-For" clientIp)
  | None => mret tt
  end;;

  update_url (Request.URL outreq) (URL.with_Host (DomainProxy p));;
  u ← load_url (Request.URL outreq);
  mret (Request.with_Host (URL.Host u) outreq).

(** [ServeHTTP], lines 189 to 208: the body of the response is relayed. *)
Definition relay_body (p : ReverseProxy) (res : Response) : M unit :=
  match Response.Body res with
  | None => mret tt
  | Some _ =>
      w ← get;
      dst ←
        (if negb (FlushInterval p =? 0)%Z && rw_flusher (rw w) then
           modify (with_task NotStarted);;
           mret (to_maxLatencyWriter (FlushInterval p))
         else mret to_rw);
      let relay := Go_io.Copy dst in
      if (Response.StatusCode res =? 200)%Z then
        match Response.Header res !! "Content-Type" with
        | Some [] => panic           (* ct[0] *)
        | Some (ct :: _) =>
            if String.eqb ct "text/plain; charset=utf-8" then
              buf ← Go_io.ReadAll;
              let b := Go_bytes.Replace buf
                         (list_byte_of_string (DomainProxy p))
                         (list_byte_of_string (Domain p)) (-1) in
              Go_io.Copy_buffer dst b;;
              return_
            else relay
        | None => relay
        end
      else relay
  end.

(** [ServeHTTP], lines 167 to 208: the response [res] of the backend is
    relayed to the client. *)
Definition relay_response (p : ReverseProxy) (res : Response) : M unit :=
  w ← get;
  update_rw_header (λ dst, copyHeader (range_order w) dst (Response.Header res));;

  (if bool_decide (Response.StatusCode res ∈ [301; 302; 307]%Z) then
     match Response.Header res !! "Location" with
     | None => mret tt
     | Some [] => panic              (* l[0] *)
     | Some (loc :: _) => scan_forbiddens loc (forbiddens p)
     end
   else mret tt);;

  WriteHeader (Response.StatusCode res);;
  relay_body p res.

(** [func (p *ReverseProxy) ServeHTTP(rw http.ResponseWriter, req *http.Request)];
    [rw] is the client side of the world. *)
Definition ServeHTTP (p : ReverseProxy) (req : Request) : M unit :=
  w ← get;
  let transport := default (DefaultTransport w) (Transport p) in
  outreq ← outbound_request p req;
  res ← RoundTrip transport outreq;
  match res with
  | None =>
      WriteHeader 500;;              (* http.StatusInternalServerError *)
      return_
  | Some res => relay_response p res
  end.

(* ===================================================================== *)
(** ** The two goroutines of a [maxLatencyWriter]

    A body copy through a [maxLatencyWriter] runs the copying goroutine
    (the loop of [io.Copy], which calls [Write]) and, from the first
    write on, the goroutine of [flushLoop].  They share the mutex [lk]
    and the channel [done], which has no buffer: a send on it completes
    together with a receive.  The steps below interleave the two; the
    goroutine of [flushLoop] is followed from its [select] on, with the
    ticker that a positive [latency] gives it ([go_flushLoop]). *)
(* ===================================================================== *)

Module FlushLoop.

Inductive Goroutine := copying | flushing.

(** Where the copying goroutine is. *)
Inductive Copier :=
| CopyNext (chunks : list (list byte))       (* io.Copy: before the next read *)
| WantLock (p : list byte) (rest : list (list byte))   (* Write: m.lk.Lock() *)
| Locked (p : list byte) (rest : list (list byte))     (* lock held, before the write *)
| Sending (rest : list (list byte))          (* lock held, at m.done <- true *)
| Unlocking (ok : bool) (rest : list (list byte))      (* the deferred m.lk.Unlock() *)
| CopyDone.                                  (* io.Copy has returned *)

(** Where the goroutine of [flushLoop] is. *)
Inductive Flusher :=
| NoTask                                     (* m.done == nil: not started *)
| Select                                     (* at the select *)
| TickWantLock                               (* case <-t.C: at m.lk.Lock() *)
| Flushing                                   (* lock held: m.dst.Flush() *)
| TaskReturned.                              (* case <-m.done: return *)

Record Config := mkConfig {
  copier : Copier;
  flusher : Flusher;
  lk : option Goroutine;                     (* who holds m.lk *)
  dst : ResponseWriter;                      (* m.dst *)
  signals : nat;                             (* sends on done that completed *)
  flushes : nat                              (* calls of m.dst.Flush() *)
}.

(** A copy of [chunks] to the client [c] starts here. *)
Definition start (chunks : list (list byte)) (c : ResponseWriter) : Config :=
  mkConfig (CopyNext chunks) NoTask None c 0 0.

Inductive step : Config → Config → Prop :=
(* io.Copy: the end of the stream *)
| step_eof f l d s n :
    step (mkConfig (CopyNext []) f l d s n)
         (mkConfig CopyDone f l d s n)
(* io.Copy: a read of no bytes is not written *)
| step_read_empty rest f l d s n :
    step (mkConfig (CopyNext ([] :: rest)) f l d s n)
         (mkConfig (CopyNext rest) f l d s n)
(* io.Copy: a chunk was read, and Write is called with it *)
| step_read b p rest f l d s n :
    step (mkConfig (CopyNext ((b :: p) :: rest)) f l d s n)
         (mkConfig (WantLock (b :: p) rest) f l d s n)
(* Write: m.lk.Lock() *)
| step_lock p rest f d s n :
    step (mkConfig (WantLock p rest) f None d s n)
         (mkConfig (Locked p rest) f (Some copying) d s n)
(* Write: if m.done == nil, the channel is made and the task started;
   then m.dst.Write(p) *)
| step_write p rest f d d' ok s n :
    rw_Write p d = (d', ok) →
    step (mkConfig (Locked p rest) f (Some copying) d s n)
         (mkConfig (if ok then Unlocking true rest else Sending rest)
                   (match f with NoTask => Select | _ => f end)
                   (Some copying) d' s n)
(* m.done <- true meets case <-m.done: the task returns *)
| step_signal rest l d s n :
    step (mkConfig (Sending rest) Select l d s n)
         (mkConfig (Unlocking false rest) TaskReturned l d (S s) n)
(* Write returns: the deferred m.lk.Unlock(); io.Copy goes on after a
   write that succeeded and returns after one that failed *)
| step_unlock ok rest f d s n :
    step (mkConfig (Unlocking ok rest) f (Some copying) d s n)
         (mkConfig (if ok then CopyNext rest else CopyDone) f None d s n)
(* flushLoop: case <-t.C *)
| step_tick cp l d s n :
    step (mkConfig cp Select l d s n)
         (mkConfig cp TickWantLock l d s n)
(* flushLoop: m.lk.Lock() *)
| step_flush_lock cp d s n :
    step (mkConfig cp TickWantLock None d s n)
         (mkConfig cp Flushing (Some flushing) d s n)
(* flushLoop: m.dst.Flush(); m.lk.Unlock() *)
| step_flush cp d s n :
    step (mkConfig cp Flushing (Some flushing) d s n)
         (mkConfig cp Select None d s (S n)).

(** The runs of a copy. *)
Definition steps : Config → Config → Prop := rtc step.


(** No step is possible. *)
Definition stuck (c : Config) : Prop := ∀ c', ¬ step c c'.

(** The bytes that the copying goroutine has still to hand to [Write]. *)
Definition remaining (cp : Copier) : list byte :=
  match cp with
  | CopyNext chunks => concat chunks
  | WantLock p rest | Locked p rest => p ++ concat rest
  | Sending _ | Unlocking _ _ | CopyDone => []
  end.

(** In a write that has failed: at the send, or returning after it. *)
Definition after_failed_write (cp : Copier) : Prop :=
  (∃ rest, cp = Sending rest) ∨ (∃ rest, cp = Unlocking false rest).

(** After [dst.Write] in a call of [Write]. *)
Definition after_write (cp : Copier) : Prop :=
  (∃ rest, cp = Sending rest) ∨ (∃ ok rest, cp = Unlocking ok rest).

(** What holds all through a copy of [chunks] to the client [c0]. *)
Definition invariant (chunks : list (list byte)) (c0 : ResponseWriter)
    (c : Config) : Prop :=
  (signals c ≤ 1)%nat
  ∧ (flusher c = TaskReturned ↔ signals c = 1)
  ∧ (signals c = 1 → copier c = CopyDone ∨ ∃ rest, copier c = Unlocking false rest)
  ∧ (after_write (copier c) → flusher c ≠ NoTask)
  ∧ (flusher c = NoTask → remaining (copier c) = concat chunks)
  ∧ (rw_room c0 = None →
     rw_room (dst c) = None ∧ ¬ after_failed_write (copier c) ∧ signals c = 0).

End FlushLoop.

(* ===================================================================== *)
(** ** Notions used in the statements *)
(* ===================================================================== *)

(** A string ends with, and starts with, another one. *)
Definition ends_with (s t : string) : Prop := ∃ s0, s = s0 +:+ t.
Definition starts_with (s t : string) : Prop := ∃ s0, s = t +:+ s0.

(** The three-case rule of the path join, in its own words: [r] is the
    joining of the base path [a] and the path [b] when, both touching
    with a slash, one of the two is dropped; neither touching with a
    slash, one is inserted; otherwise the two are put together as they
    are. *)
Inductive joined (a b : string) : string → Prop :=
| joined_both (b0 : string) :
    ends_with a "/" → b = "/" +:+ b0 → joined a b (a +:+ b0)
| joined_neither :
    ¬ ends_with a "/" → ¬ starts_with b "/" → joined a b (a +:+ "/" +:+ b)
| joined_left :
    ends_with a "/" → ¬ starts_with b "/" → joined a b (a +:+ b)
| joined_right :
    ¬ ends_with a "/" → starts_with b "/" → joined a b (a +:+ b).

(** The junction of [r], joined from [a] and [b]: [r] is [a0], a slash
    and [b0], where [a0] is [a], without its last slash or as it is, and
    [b0] is [b], without its first slash or as it is. *)
Definition junction (a b r a0 b0 : string) : Prop :=
  r = a0 +:+ "/" +:+ b0
  ∧ (a = a0 ∨ a = a0 +:+ "/")
  ∧ (b = b0 ∨ b = "/" +:+ b0).

(** No slash is missing at the junction. *)
Definition slash_at_junction (a b r : string) : Prop :=
  ∃ a0 b0, junction a b r a0 b0.

(** There is one slash at the junction, and no second one on either side
    of it. *)
Definition one_slash_junction (a b r : string) : Prop :=
  ∃ a0 b0, junction a b r a0 b0 ∧ ¬ ends_with a0 "/" ∧ ¬ starts_with b0 "/".

(** The header map after line 150: the forwarded-for entry is set when
    the remote address splits into host and port. *)
Definition forwarded_for (addr : string) (h : Header) : Header :=
  match Go_net.SplitHostPort addr with
  | Some (clientIp, _) => Set_ h "X-Forwarded-For" clientIp
  | None => h
  end.

(** The fields of the outbound request struct that lines 134 to 154 set. *)
Definition outbound_struct (p : ReverseProxy) (hdr : ref) (req : Request)
  : Request :=
  Request.with_Host (DomainProxy p)
    (Request.with_Header hdr
       (Request.with_Close false (Request.with_Proto "HTTP/1.1" 1 1 req))).

(** The transport that a cycle uses. *)
Definition transport_of (p : ReverseProxy) (w : World) : RoundTripper :=
  default (DefaultTransport w) (Transport p).

(** The test of lines 173 to 185: a redirect whose first [Location]
    value starts with a forbidden prefix. *)
Definition filtered (p : ReverseProxy) (res : Response) : bool :=
  bool_decide (Response.StatusCode res ∈ [301; 302; 307]%Z)
  && match Response.Header res !! "Location" with
     | Some (loc :: _) =>
         existsb (λ forbidden, Go_strings.HasPrefix loc forbidden) (forbiddens p)
     | _ => false
     end.

(** A header of the response whose slice of values is empty without
    being nil makes [l[0]] or [ct[0]] panic; the headers that a
    transport parses never are. *)
Definition indexable (res : Response) (key : string) : Prop :=
  Response.Header res !! key ≠ Some [].

(** An action that works on the store only. *)
Definition store_only {A : Type} (m : M A) : Prop :=
  ∀ w, match m w with
       | Next _ w' | Halt _ w' => w' = with_store (store w') w
       end.

(** An action that leaves the store and the list of sent requests as
    they are. *)
Definition keeps_store {A : Type} (m : M A) : Prop :=
  ∀ w, match m w with
       | Next _ w' | Halt _ w' => store w' = store w ∧ sent w' = sent w
       end.

(** The client side after line 167, the headers of the response added. *)
Definition relay_headers (res : Response) (w : World) : ResponseWriter :=
  mkRW (copyHeader (range_order w) (rw_header (rw w)) (Response.Header res))
       (rw_status (rw w)) (rw_body (rw w)) (rw_room (rw w)) (rw_flusher (rw w)).

(** The test of lines 196 to 198: status 200 and a first [Content-Type]
    value that is exactly the plain-text type. *)
Definition text_plain (res : Response) : bool :=
  (Response.StatusCode res =? 200)%Z
  && match Response.Header res !! "Content-Type" with
     | Some (ct :: _) => String.eqb ct "text/plain; charset=utf-8"
     | _ => false
     end.

(** The body of a response as the transport hands it over, and after
    it was read to the end of the stream. *)
Definition fresh_body (res : Response) : option Reader :=
  (λ c, mkReader c false) <$> Response.Body res.
Definition drained_body (res : Response) : option Reader :=
  (λ _, mkReader [] false) <$> Response.Body res.

(** The bytes of the body of a response, and the bytes that the relay
    hands to the client for it. *)
Definition body_bytes (res : Response) : list byte :=
  concat (default [] (Response.Body res)).
Definition relayed_bytes (p : ReverseProxy) (res : Response) : list byte :=
  match Response.Body res with
  | None => []
  | Some _ =>
      if text_plain res then
        Go_bytes.Replace (body_bytes res) (list_byte_of_string (DomainProxy p))
          (list_byte_of_string (Domain p)) (-1)
      else body_bytes res
  end.

(** A reply of the transport whose headers can be indexed. *)
Definition well_formed_reply (r : option Response) : Prop :=
  match r with
  | Some res => indexable res "Location" ∧ indexable res "Content-Type"
  | None => True
  end.

(** [old] occurs in [s] at position [i]. *)
Definition occurs_at (old s : list byte) (i : nat) : Prop :=
  ∃ a b, s = a ++ old ++ b ∧ length a = i.

(** The replacement in the words of the specification: global, literal,
    not overlapping.  [ReplacedAll old new s t n] says that [t] is [s]
    with [n] occurrences of [old] replaced by [new], each the first one
    after the preceding replaced occurrence, and with every other byte
    as it is in [s]; after the last of them [old] occurs no more. *)
Inductive ReplacedAll (old new : list byte)
  : list byte → list byte → nat → Prop :=
| ReplacedAll_none (s : list byte) :
    (∀ i, ¬ occurs_at old s i) →
    ReplacedAll old new s s 0
| ReplacedAll_next (pre rest out : list byte) (n : nat) :
    (∀ i, i < length pre → ¬ occurs_at old (pre ++ old ++ rest) i) →
    ReplacedAll old new rest out n →
    ReplacedAll old new (pre ++ old ++ rest) (pre ++ new ++ out) (S n).


(** The client takes every write. *)
Definition client_accepts_all (w : World) : Prop := rw_room (rw w) = None.

(* ===================================================================== *)
(** ** The constructor and the handler of the main package *)
(* ===================================================================== *)

Section program.

(** [url.Parse] of net/url, which [New] calls: [None] is a non-nil [err]. *)
Variable url_Parse : string → option URL.

(** [func New(domainProxy, domain string) (proxy *ReverseProxy, err error)] *)
Definition New (domainProxy domain : string) : option ReverseProxy :=
  u ← url_Parse ("http://" +:+ domainProxy);
  let proxy := newSingleHostReverseProxy u in
  Some (mkProxy (Director proxy) (Transport proxy) (FlushInterval proxy)
                domainProxy domain (forbiddens proxy)).

(** [func greetA(w http.ResponseWriter, r *http.Request)]; on an error
    of [New] the handler prints it and returns. *)
Definition greetA (r : Request) : M unit :=
  match New "localhost:80" "" with
  | None => return_
  | Some proxy => ServeHTTP proxy r
  end.

End program.

(* ===================================================================== *)
(** ** More notions for the statements *)
(* ===================================================================== *)

(** An action that leaves the header map of the client side as it is. *)
Definition keeps_rw_header {A : Type} (m : M A) : Prop :=
  ∀ w, match m w with
       | Next _ w' | Halt _ w' => rw_header (rw w') = rw_header (rw w)
       end.

(** An action that does not touch the flush task and does not block. *)
Definition no_flush_task {A : Type} (m : M A) : Prop :=
  ∀ w, match m w with
       | Next _ w' => task w' = task w
       | Halt e w' => task w' = task w ∧ e ≠ Blocked
       end.

(** The copying goroutine is inside [Write], between [m.lk.Lock()] and
    the deferred [m.lk.Unlock()]. *)
Definition in_Write (cp : FlushLoop.Copier) : bool :=
  match cp with
  | FlushLoop.Locked _ _ | FlushLoop.Sending _ | FlushLoop.Unlocking _ _ => true
  | _ => false
  end.

(** The mutex is held by the goroutine that is in its critical section,
    and by no one when neither is. *)
Definition lock_discipline (c : FlushLoop.Config) : Prop :=
  match FlushLoop.lk c with
  | None =>
      in_Write (FlushLoop.copier c) = false
      ∧ FlushLoop.flusher c ≠ FlushLoop.Flushing
  | Some FlushLoop.copying =>
      in_Write (FlushLoop.copier c) = true
      ∧ FlushLoop.flusher c ≠ FlushLoop.Flushing
  | Some FlushLoop.flushing =>
      in_Write (FlushLoop.copier c) = false
      ∧ FlushLoop.flusher c = FlushLoop.Flushing
  end.

(** The bytes that the copy will still hand to the client. *)
Definition to_write (cp : FlushLoop.Copier) : list byte :=
  match cp with
  | FlushLoop.CopyNext chunks => concat chunks
  | FlushLoop.WantLock p rest | FlushLoop.Locked p rest => p ++ concat rest
  | FlushLoop.Unlocking true rest => concat rest
  | _ => []
  end.

(** What also holds all through a copy of [chunks] to the client [c0]:
    the lock discipline, and an account of the bytes; [lost] are the
    bytes given up after a write that failed. *)
Definition byte_account (chunks : list (list byte)) (c0 : ResponseWriter)
    (c : FlushLoop.Config) : Prop :=
  lock_discipline c
  ∧ (rw_room c0 = None → rw_room (FlushLoop.dst c) = None)
  ∧ ∃ lost,
      rw_body (FlushLoop.dst c) ++ to_write (FlushLoop.copier c) ++ lost
        = rw_body c0 ++ concat chunks
      ∧ (rw_room c0 = None → lost = []).

(* ===================================================================== *)
(** ** Values for the examples *)
(* ===================================================================== *)

Definition example_target : URL := URL.mk "http" "backend:9000" "" "" "".
Definition example_url : URL := URL.mk "" "" "/dir?a=1" "/dir" "a=1".
Definition example_request : Request :=
  Request.mk "GET" 0 "HTTP/1.0" 1 0 0 true "example.com" "1.2.3.4:5678".

Definition example_proxy : ReverseProxy :=
  Forbidden
    (mkProxy (director example_target) None 0 "backend:9000" "example.com" [])
    "http://evil.test".
Definition example_header : Header := {[ "Accept" := ["*/*"] ]}.
Definition fresh_client : ResponseWriter := mkRW ∅ None [] None true.
Definition no_backend : RoundTripper := λ _ _, None.
Definition backend (res : Response) : RoundTripper := λ _ _, Some res.
Definition example_world (h : Header) (t : RoundTripper) (c : ResponseWriter)
  : World :=
  mkWorld (mkStore [h] [example_url]) t map_to_list true c [] None NotStarted.

Definition redirect_to_evil : Response :=
  Response.mk 302 {[ "Location" := ["http://evil.test/x"] ]}
    (Some [list_byte_of_string "moved"]).
Definition plain_text_reply : Response :=
  Response.mk 200 {[ "Content-Type" := ["text/plain; charset=utf-8"] ]}
    (Some [list_byte_of_string "visit back"; list_byte_of_string "end:9000 now"]).

Definition refusing_client : ResponseWriter := mkRW ∅ None [] (Some 0) true.
Definition example_chunk : list byte := list_byte_of_string "data".

Definition example_parse (s : string) : option URL :=
  if String.eqb s "http://localhost:80"
  then Some (URL.mk "http" "localhost:80" "" "" "") else None.

Definition flushing_proxy : ReverseProxy :=
  mkProxy (director example_target) None 1000000 "backend:9000" "example.com" [].

(* ===================================================================== *)
(** * Properties *)
(* ===================================================================== *)

Example singleJoiningSlash_both : singleJoiningSlash "/base/" "/dir" = "/base/dir".
Proof. reflexivity. Qed.
Example singleJoiningSlash_neither : singleJoiningSlash "/base" "dir" = "/base/dir".
Proof. reflexivity. Qed.
Example singleJoiningSlash_left : singleJoiningSlash "/base/" "dir" = "/base/dir".
Proof. reflexivity. Qed.
Example singleJoiningSlash_right : singleJoiningSlash "/base" "/dir" = "/base/dir".
Proof. reflexivity. Qed.
Example singleJoiningSlash_empty : singleJoiningSlash "" "" = "/".
Proof. reflexivity. Qed.

(* ===================================================================== *)
(** ** Facts about strings *)
(* ===================================================================== *)

Section string_facts.

Lemma app_cons_s (c : ascii) (s t : string) :
  String c s +:+ t = String c (s +:+ t).
Proof. reflexivity. Qed.

Lemma app_nil_s (t : string) : "" +:+ t = t.
Proof. reflexivity. Qed.

Lemma substring_all (s : string) : substring 0 (String.length s) s = s.
Proof. induction s as [|c s IH]; simpl; [done | by f_equal]. Qed.

Lemma slice_from_all (s : string) : slice_from s 0 = s.
Proof.
  unfold slice_from, slice, len. rewrite Nat.sub_0_r. apply substring_all.
Qed.

Lemma slice_from_cons (c : ascii) (s : string) : slice_from (String c s) 1 = s.
Proof.
  unfold slice_from, slice, len. simpl. rewrite Nat.sub_0_r.
  apply substring_all.
Qed.

Lemma app_empty_r (s : string) : s +:+ "" = s.
Proof. induction s as [|c s IH]; [done | by rewrite app_cons_s, IH]. Qed.

Lemma app_assoc_s (s t u : string) : (s +:+ t) +:+ u = s +:+ (t +:+ u).
Proof. induction s as [|c s IH]; [done | by rewrite !app_cons_s, IH]. Qed.

Lemma length_app_s (s t : string) :
  String.length (s +:+ t) = String.length s + String.length t.
Proof.
  induction s as [|c s IH]; [done|]. rewrite app_cons_s. simpl. by rewrite IH.
Qed.

(** A string starts with ["/"] exactly when its first byte is the slash. *)
Lemma HasPrefix_slash (b : string) :
  HasPrefix b "/" = match b with String c _ => Ascii.eqb c "/" | "" => false end.
Proof.
  destruct b as [|c b]; [done|].
  unfold HasPrefix, slice, len. simpl.
  by destruct b, (Ascii.eqb c "/").
Qed.

(** The last position: [s[len(s)-1:]] of a string that ends with [c]. *)
Lemma slice_from_last (s : string) (c : ascii) :
  slice_from (s +:+ String c "") (String.length s) = String c "".
Proof.
  unfold slice_from, slice, len. rewrite length_app_s. simpl.
  replace (String.length s + 1 - String.length s) with 1 by lia.
  induction s as [|d s IH]; [done|]. rewrite app_cons_s. exact IH.
Qed.

(** Every non-empty string is a string followed by one last byte. *)
Lemma string_snoc (s : string) :
  s = "" ∨ ∃ s0 c, s = s0 +:+ String c "".
Proof.
  induction s as [|d s IH]; [by left | right].
  destruct IH as [-> | (s0 & c & ->)].
  - by exists "", d.
  - by exists (String d s0), c.
Qed.

Lemma HasSuffix_snoc (s : string) (c : ascii) :
  HasSuffix (s +:+ String c "") "/" = Ascii.eqb c "/".
Proof.
  unfold HasSuffix. unfold len at 1 2 3 4. rewrite length_app_s. simpl.
  replace (String.length s + 1 - 1) with (String.length s) by lia.
  rewrite slice_from_last.
  rewrite Nat.add_1_r. simpl. by destruct (Ascii.eqb c "/").
Qed.

Lemma HasSuffix_empty : HasSuffix "" "/" = false.
Proof. reflexivity. Qed.

End string_facts.

(** Appending one byte is injective. *)
Lemma app_snoc_inj (s t : string) (c d : ascii) :
  s +:+ String c "" = t +:+ String d "" → s = t ∧ c = d.
Proof.
  revert t. induction s as [|e s IH]; intros [|f t] H.
  - by injection H as ->.
  - rewrite app_cons_s in H. injection H as -> H. by destruct t.
  - rewrite app_cons_s in H. injection H as -> H. by destruct s.
  - rewrite !app_cons_s in H. injection H as -> H.
    destruct (IH _ H) as [-> ->]. done.
Qed.

(** The tests of the code decide how the two paths touch. *)
Lemma ends_with_slash (a : string) :
  ends_with a "/" ↔ HasSuffix a "/" = true.
Proof.
  split.
  - intros [s0 ->]. by rewrite HasSuffix_snoc.
  - intros H. destruct (string_snoc a) as [-> | (s0 & c & ->)]; [done|].
    rewrite HasSuffix_snoc in H. apply Ascii.eqb_eq in H. subst c.
    by exists s0.
Qed.

Lemma starts_with_slash (b : string) :
  starts_with b "/" ↔ HasPrefix b "/" = true.
Proof.
  rewrite HasPrefix_slash. split.
  - intros [s0 ->]. reflexivity.
  - destruct b as [|c b]; [done|]. intros H. apply Ascii.eqb_eq in H.
    subst c. by exists b.
Qed.

Lemma ends_with_two_slashes (a0 : string) :
  ends_with (a0 +:+ "/") "//" → ends_with a0 "/".
Proof.
  intros [s0 H]. exists s0.
  change "//" with ("/" +:+ "/") in H. rewrite <- app_assoc_s in H.
  by apply app_snoc_inj in H as [-> _].
Qed.

(** The rule puts a slash at the junction. *)
Lemma joined_slash_at_junction (a b r : string) :
  joined a b r → slash_at_junction a b r.
Proof.
  intros [b0 [a0 ->] -> | _ _ | [a0 ->] _ | _ [b0 ->]].
  - exists a0, b0. rewrite app_assoc_s. by split; [|split; right].
  - exists a, b. by split; [|split; left].
  - exists a0, b. rewrite app_assoc_s. by split; [|split; [right|left]].
  - exists a, b0. by split; [|split; [left|right]].
Qed.

(** One slash only at the junction: then the base path has no two
    slashes at its end, nor the path two at its start. *)
Lemma one_slash_junction_paths (a b r : string) :
  one_slash_junction a b r → ¬ ends_with a "//" ∧ ¬ starts_with b "//".
Proof.
  intros (a0 & b0 & (_ & Ha & Hb) & Hna & Hnb). split.
  - intros Hd. apply Hna. destruct Ha as [-> | ->].
    + destruct Hd as [s0 ->]. exists (s0 +:+ "/"). by rewrite app_assoc_s.
    + by apply ends_with_two_slashes.
  - intros [s0 Hd]. apply Hnb. destruct Hb as [-> | ->].
    + by exists ("/" +:+ s0).
    + exists s0. by injection Hd.
Qed.

(** The rule leaves one slash only at the junction of such paths. *)
Lemma joined_one_slash_junction (a b r : string) :
  joined a b r →
  ¬ ends_with a "//" → ¬ starts_with b "//" →
  one_slash_junction a b r.
Proof.
  intros Hj Hda Hdb.
  assert (Hta : ∀ a0, a = a0 +:+ "/" → ¬ ends_with a0 "/").
  { intros a0 -> [s0 ->]. apply Hda. exists s0. by rewrite app_assoc_s. }
  assert (Htb : ∀ b0, b = "/" +:+ b0 → ¬ starts_with b0 "/").
  { intros b0 -> [s0 ->]. apply Hdb. by exists s0. }
  destruct Hj as [b0 [a0 Ha] Hb | Hna Hnb | [a0 Ha] Hnb | Hna [b0 Hb]].
  - exists a0, b0. split; [|by split; [apply Hta | apply Htb]].
    split; [by rewrite Ha, app_assoc_s | by split; right].
  - exists a, b. by split; [split; [|split; left]|].
  - exists a0, b. split; [|by split; [apply Hta|]].
    split; [by rewrite Ha, app_assoc_s | by split; [right|left]].
  - exists a, b0. split; [|by split; [|apply Htb]].
    split; [by rewrite Hb | by split; [left|right]].
Qed.

(** C8. [singleJoiningSlash a b] follows the three-case rule (both sides
    touch with a slash: one is dropped; neither does: one is inserted;
    otherwise the two are put together as they are), so a slash is never
    missing at the junction.  One slash of each side at most is dropped:
    the junction has one slash only, and no second one next to it,
    exactly when the base path does not end with two slashes and the
    path does not start with two. *)
Theorem singleJoiningSlash_one_slash (a b : string) :
  joined a b (singleJoiningSlash a b)
  ∧ slash_at_junction a b (singleJoiningSlash a b)
  ∧ (one_slash_junction a b (singleJoiningSlash a b)
     ↔ ¬ ends_with a "//" ∧ ¬ starts_with b "//").
Proof.
  assert (Hj : joined a b (singleJoiningSlash a b)).
  { unfold singleJoiningSlash.
    destruct (HasSuffix a "/") eqn:Ha, (HasPrefix b "/") eqn:Hb; simpl.
    - apply starts_with_slash in Hb as [b0 ->].
      change ("/" +:+ b0) with (String "/"%char b0) at 2.
      rewrite slice_from_cons.
      apply joined_both; [by apply ends_with_slash | done].
    - apply joined_left; [by apply ends_with_slash|].
      rewrite starts_with_slash. by rewrite Hb.
    - apply joined_right; [|by apply starts_with_slash].
      rewrite ends_with_slash. by rewrite Ha.
    - apply joined_neither.
      + rewrite ends_with_slash. by rewrite Ha.
      + rewrite starts_with_slash. by rewrite Hb. }
  split; [exact Hj|]. split; [by apply joined_slash_at_junction|]. split.
  - apply one_slash_junction_paths.
  - intros [Hda Hdb]. by apply joined_one_slash_junction.
Qed.

Lemma singleJoiningSlash_one_slash_witness :
  joined "/base/" "/dir" "/base/dir"
  ∧ one_slash_junction "/base/" "/dir" "/base/dir".
Proof.
  pose proof (singleJoiningSlash_one_slash "/base/" "/dir") as (Hj & _ & Hone).
  split; [exact Hj|]. apply Hone. split.
  - intros H. apply (ends_with_two_slashes "/base") in H.
    destruct H as [s0 H]. change "/base" with ("/bas" +:+ "e") in H.
    by apply app_snoc_inj in H as [_ H].
  - by intros [s0 H].
Defined.

(** C8, as the claim states it, fails: of two slashes at the end of the
    base path, or at the start of the path, one at most is dropped, and
    the junction is left with more than one. *)
Lemma singleJoiningSlash_counterexample :
  singleJoiningSlash "//" "//" = "///"
  ∧ ¬ one_slash_junction "//" "//" (singleJoiningSlash "//" "//")
  ∧ singleJoiningSlash "/base/" "//dir" = "/base//dir"
  ∧ ¬ one_slash_junction "/base/" "//dir" (singleJoiningSlash "/base/" "//dir").
Proof.
  split; [reflexivity|]. split.
  { intros H. apply one_slash_junction_paths in H as [H _].
    apply H. by exists "". }
  split; [reflexivity|].
  intros H. apply one_slash_junction_paths in H as [_ H].
  apply H. by exists "dir".
Qed.

(* ===================================================================== *)
(** ** The director *)
(* ===================================================================== *)

(** What the assignments of the director leave in the URL object. *)
Lemma director_assign_fields (target u : URL) :
  let u' := director_assign target u in
  URL.Scheme u' = URL.Scheme target
  ∧ URL.Host u' = URL.Host target
  ∧ URL.Path u' = singleJoiningSlash (URL.Path target) (URL.Path u)
  ∧ URL.RawPath u' =
      (if String.eqb (URL.RawQuery u) "" then URL.Path u'
       else URL.Path u' +:+ "?" +:+ URL.RawQuery u)
  ∧ URL.RawQuery u' = URL.RawQuery target.
Proof.
  destruct u as [sc ho rp pa rq]. unfold director_assign. simpl.
  by destruct (String.eqb rq "").
Qed.

Lemma director_Some (target u : URL) (req : Request) (σ : Store) :
  urls σ !! Request.URL req = Some u →
  director target req σ
    = Some (req, mkStore (hdrs σ)
                   (<[Request.URL req := director_assign target u]> (urls σ))).
Proof. intros Hu. unfold director. by rewrite Hu. Qed.

(** C2, as the code has it.  For an inbound request with a query string
    [q], the director keeps [q] unchanged at the end of the outbound
    [RawPath], after the joined path and a question mark; the field
    [RawQuery] of the outbound URL is set to the query of the target. *)
Theorem director_query (target u : URL) (req : Request) (σ : Store) :
  urls σ !! Request.URL req = Some u →
  URL.RawQuery u ≠ "" →
  ∃ σ' u',
    director target req σ = Some (req, σ')
    ∧ urls σ' !! Request.URL req = Some u'
    ∧ URL.RawPath u' =
        singleJoiningSlash (URL.Path target) (URL.Path u)
          +:+ "?" +:+ URL.RawQuery u
    ∧ URL.RawQuery u' = URL.RawQuery target.
Proof.
  intros Hu Hq.
  destruct (director_assign_fields target u) as (_ & _ & Hpath & Hraw & Hquery).
  eexists _, _. split; [by apply director_Some|]. simpl.
  split; [apply list_lookup_insert_eq; by eapply lookup_lt_Some|].
  split; [|done].
  rewrite Hraw, Hpath.
  destruct (String.eqb_spec (URL.RawQuery u) ""); [done|reflexivity].
Qed.

Lemma director_query_witness :
  ∃ σ' u',
    director example_target example_request (mkStore [∅] [example_url])
      = Some (example_request, σ')
    ∧ urls σ' !! 0 = Some u'
    ∧ URL.RawPath u' = "/dir?a=1"
    ∧ URL.RawQuery u' = "".
Proof.
  apply (director_query example_target example_url example_request
           (mkStore [∅] [example_url])); [reflexivity | discriminate].
Defined.

(** C2, as the claim states it, fails: the inbound query [a=1] is not the
    query of the outbound URL, which is the (empty) query of the target. *)
Lemma director_query_counterexample :
  ∃ σ' u',
    director example_target example_request (mkStore [∅] [example_url])
      = Some (example_request, σ')
    ∧ urls σ' !! Request.URL example_request = Some u'
    ∧ URL.RawQuery example_url = "a=1"
    ∧ URL.RawQuery u' ≠ URL.RawQuery example_url.
Proof.
  eexists _, _. split; [reflexivity|]. split; [reflexivity|].
  split; [reflexivity | discriminate].
Qed.

(* ===================================================================== *)
(** ** Running a handler step by step *)
(* ===================================================================== *)

(** Projections of a world that was updated. *)
Lemma ret_eq {A : Type} (a : A) (w : World) : (mret a : M A) w = Next a w.
Proof. reflexivity. Qed.

Lemma with_store_twice (σ σ' : Store) (w : World) :
  with_store σ (with_store σ' w) = with_store σ w.
Proof. reflexivity. Qed.

Ltac wsimpl :=
  rewrite ?ret_eq, ?with_store_twice;
  cbn [store DefaultTransport range_order stop_received rw sent body task
       with_store with_rw with_sent with_body with_task
       hdrs urls
       Request.Method Request.URL Request.Proto Request.ProtoMajor
       Request.ProtoMinor Request.Header Request.Close Request.Host
       Request.RemoteAddr Request.with_Proto Request.with_Header
       Request.with_Close Request.with_Host
       rw_header rw_status rw_body rw_room rw_flusher].

Ltac ssimpl :=
  rewrite ?with_store_twice; cbn [store with_store hdrs urls].

Section handler_steps.

Lemma bind_eq {A B : Type} (m : M A) (k : A → M B) (w : World) :
  (m ≫= k) w = match m w with Next a w' => k a w' | Halt e w' => Halt e w' end.
Proof. reflexivity. Qed.

Lemma bind_Next {A B : Type} (m : M A) (k : A → M B) (w w' : World) (a : A) :
  m w = Next a w' → (m ≫= k) w = k a w'.
Proof. intros H. by rewrite bind_eq, H. Qed.

Lemma bind_Halt {A B : Type} (m : M A) (k : A → M B) (w w' : World) (e : Exit) :
  m w = Halt e w' → (m ≫= k) w = Halt e w'.
Proof. intros H. by rewrite bind_eq, H. Qed.

Lemma load_header_Some (r : ref) (h : Header) (w : World) :
  hdrs (store w) !! r = Some h → load_header r w = Next h w.
Proof. intros H. unfold load_header. by rewrite H. Qed.

Lemma update_header_Some (r : ref) (f : Header → Header) (h : Header) (w : World) :
  hdrs (store w) !! r = Some h →
  update_header r f w
    = Next tt (with_store (mkStore (<[r := f h]> (hdrs (store w)))
                                   (urls (store w))) w).
Proof. intros H. unfold update_header. by rewrite H. Qed.

Lemma update_url_Some (r : ref) (f : URL → URL) (u : URL) (w : World) :
  urls (store w) !! r = Some u →
  update_url r f w
    = Next tt (with_store (mkStore (hdrs (store w))
                                   (<[r := f u]> (urls (store w)))) w).
Proof. intros H. unfold update_url. by rewrite H. Qed.

Lemma load_url_Some (r : ref) (u : URL) (w : World) :
  urls (store w) !! r = Some u → load_url r w = Next u w.
Proof. intros H. unfold load_url. by rewrite H. Qed.

Lemma call_Director_director (p : ReverseProxy) (target u : URL)
    (req : Request) (w : World) :
  Director p = director target →
  urls (store w) !! Request.URL req = Some u →
  call_Director p req w
    = Next req
        (with_store
           (mkStore (hdrs (store w))
              (<[Request.URL req := director_assign target u]> (urls (store w))))
           w).
Proof.
  intros HD Hu. unfold call_Director. by rewrite HD, (director_Some _ _ _ _ Hu).
Qed.

End handler_steps.

(* ===================================================================== *)
(** ** The outbound request *)
(* ===================================================================== *)

Section outbound.

Context (p : ReverseProxy) (target : URL) (req : Request) (w : World).
Context (u : URL) (h : Header).
Hypothesis HDirector : Director p = director target.
Hypothesis Hurl : urls (store w) !! Request.URL req = Some u.
Hypothesis Hheader : hdrs (store w) !! Request.Header req = Some h.

(** The last lines of the request phase, after the header map [hdr] of
    the outbound request is settled. *)
Lemma outbound_request_tail (outreq : Request) (hs : list Header) :
  Request.URL outreq = Request.URL req →
  let w0 := with_store
              (mkStore hs
                 (<[Request.URL req := director_assign target u]> (urls (store w))))
              w in
  (update_url (Request.URL outreq) (URL.with_Host (DomainProxy p));;
   u0 ← load_url (Request.URL outreq);
   mret (Request.with_Host (URL.Host u0) outreq)) w0
  = Next (Request.with_Host (DomainProxy p) outreq)
      (with_store
         (mkStore hs
            (<[Request.URL req :=
                 URL.with_Host (DomainProxy p) (director_assign target u)]>
               (urls (store w))))
         w).
Proof.
  intros -> w0.
  assert (Hlt : Request.URL req < length (urls (store w)))
    by (by eapply lookup_lt_Some).
  erewrite bind_Next; last first.
  { apply update_url_Some. subst w0. simpl. by apply list_lookup_insert_eq. }
  erewrite bind_Next; last first.
  { apply load_url_Some. subst w0. simpl. rewrite list_insert_insert_eq.
    by apply list_lookup_insert_eq. }
  subst w0. simpl. by rewrite list_insert_insert_eq.
Qed.


(** With a [Connection] value the header map is copied: the outbound
    request gets a new map, and the map of the inbound request stays as
    it is. *)
Lemma outbound_request_copied :
  Get h "Connection" ≠ "" →
  outbound_request p req w =
    Next (outbound_struct p (length (hdrs (store w))) req)
         (with_store
            (mkStore
               (hdrs (store w)
                  ++ [forwarded_for (Request.RemoteAddr req)
                        (Del (copyHeader (range_order w) ∅ h) "Connection")])
               (<[Request.URL req :=
                    URL.with_Host (DomainProxy p) (director_assign target u)]>
                  (urls (store w))))
            w).
Proof.
  intros Hc. apply String.eqb_neq in Hc.
  assert (Hins : ∀ x y : Header,
             <[length (hdrs (store w)) := x]> (hdrs (store w) ++ [y])
             = hdrs (store w) ++ [x]).
  { intros x y. rewrite insert_app_r_alt by lia. by rewrite Nat.sub_diag. }
  unfold outbound_request.
  erewrite bind_Next; [|by apply call_Director_director].
  erewrite bind_Next; [|by apply load_header_Some].
  rewrite Hc. cbn [negb].
  erewrite bind_Next; last first.
  { erewrite bind_Next; [|reflexivity]. wsimpl.
    erewrite bind_Next; last first.
    { apply load_header_Some. wsimpl.
      rewrite lookup_app_l; [exact Hheader|]. by eapply lookup_lt_Some. }
    erewrite bind_Next; [|reflexivity].
    erewrite bind_Next; last first.
    { apply update_header_Some. wsimpl. by apply list_lookup_middle. }
    wsimpl. rewrite Hins.
    erewrite bind_Next; last first.
    { apply update_header_Some. wsimpl. by apply list_lookup_middle. }
    wsimpl. rewrite Hins. reflexivity. }
  unfold forwarded_for, outbound_struct.
  destruct (Go_net.SplitHostPort (Request.RemoteAddr req)) as [[clientIp port]|].
  - erewrite bind_Next; last first.
    { apply update_header_Some. wsimpl. by apply list_lookup_middle. }
    ssimpl. cbn [Request.Header Request.with_Header]. rewrite Hins.
    by rewrite (outbound_request_tail _ (_ ++ [_])).
  - erewrite bind_Next; [|reflexivity].
    by rewrite (outbound_request_tail _ (_ ++ [_])).
Qed.

(** Without one the outbound request keeps the map of the inbound
    request, and the forwarded-for entry is written into that map. *)
Lemma outbound_request_shared :
  Get h "Connection" = "" →
  outbound_request p req w =
    Next (outbound_struct p (Request.Header req) req)
         (with_store
            (mkStore
               (<[Request.Header req := forwarded_for (Request.RemoteAddr req) h]>
                  (hdrs (store w)))
               (<[Request.URL req :=
                    URL.with_Host (DomainProxy p) (director_assign target u)]>
                  (urls (store w))))
            w).
Proof.
  intros Hc. apply String.eqb_eq in Hc.
  unfold outbound_request.
  erewrite bind_Next; [|by apply call_Director_director].
  erewrite bind_Next; [|by apply load_header_Some].
  rewrite Hc. cbn [negb].
  erewrite bind_Next; [|reflexivity].
  unfold forwarded_for, outbound_struct.
  destruct (Go_net.SplitHostPort (Request.RemoteAddr req)) as [[clientIp port]|].
  - erewrite bind_Next; last first.
    { apply update_header_Some. wsimpl. exact Hheader. }
    ssimpl.
    rewrite (outbound_request_tail _ _) by done.
    by destruct req.
  - erewrite bind_Next; [|reflexivity].
    rewrite (outbound_request_tail _ _) by done.
    rewrite (list_insert_id (hdrs (store w)) _ h) by done.
    by destruct req.
Qed.

End outbound.

Section store_only.

Lemma store_only_ret {A : Type} (a : A) : store_only (mret a : M A).
Proof. intros w. by destruct w. Qed.

Lemma store_only_bind {A B : Type} (m : M A) (k : A → M B) :
  store_only m → (∀ a, store_only (k a)) → store_only (m ≫= k).
Proof.
  intros Hm Hk w. rewrite bind_eq. specialize (Hm w).
  destruct (m w) as [a w1|e w1]; [|done].
  specialize (Hk a w1). destruct (k a w1) as [b w2|e w2];
    rewrite Hk, Hm; by destruct w.
Qed.

Lemma store_only_load_header (r : ref) : store_only (load_header r).
Proof. intros w. by destruct w. Qed.

Lemma store_only_update_header (r : ref) (f : Header → Header) :
  store_only (update_header r f).
Proof.
  intros w. unfold update_header.
  destruct (hdrs (store w) !! r); by destruct w.
Qed.

Lemma store_only_make_header : store_only make_header.
Proof. intros w. by destruct w. Qed.

Lemma store_only_get : store_only get.
Proof. intros w. by destruct w. Qed.

Lemma store_only_load_url (r : ref) : store_only (load_url r).
Proof.
  intros w. unfold load_url. destruct (urls (store w) !! r); by destruct w.
Qed.

Lemma store_only_update_url (r : ref) (f : URL → URL) :
  store_only (update_url r f).
Proof.
  intros w. unfold update_url. destruct (urls (store w) !! r); by destruct w.
Qed.

Lemma store_only_call_Director (p : ReverseProxy) (req : Request) :
  store_only (call_Director p req).
Proof.
  intros w. unfold call_Director.
  destruct (Director p req (store w)) as [[outreq σ]|]; by destruct w.
Qed.

Lemma store_only_outbound_request (p : ReverseProxy) (req : Request) :
  store_only (outbound_request p req).
Proof.
  unfold outbound_request.
  apply store_only_bind; [apply store_only_call_Director | intros outreq].
  apply store_only_bind; [apply store_only_load_header | intros h].
  apply store_only_bind.
  { destruct (negb _); [|apply store_only_ret].
    apply store_only_bind; [apply store_only_make_header | intros r].
    apply store_only_bind; [apply store_only_load_header | intros src].
    apply store_only_bind; [apply store_only_get | intros w0].
    apply store_only_bind; [apply store_only_update_header | intros _].
    apply store_only_bind; [apply store_only_update_header | intros _].
    apply store_only_ret. }
  intros outreq'.
  apply store_only_bind.
  { destruct (Go_net.SplitHostPort _) as [[clientIp port]|];
      [apply store_only_update_header | apply store_only_ret]. }
  intros _.
  apply store_only_bind; [apply store_only_update_url | intros _].
  apply store_only_bind; [apply store_only_load_url | intros u].
  apply store_only_ret.
Qed.

End store_only.

(** Whatever the director is, the request phase leaves the client side,
    the list of sent requests and the rest of the world alone. *)
Lemma outbound_request_frame (p : ReverseProxy) (req outreq : Request)
    (w w1 : World) :
  outbound_request p req w = Next outreq w1 →
  w1 = with_store (store w1) w.
Proof.
  intros H. pose proof (store_only_outbound_request p req w) as Hs.
  by rewrite H in Hs.
Qed.

(** The handler after the request phase: one call of the transport, and
    then the status 500 or the relay of the response. *)
Lemma ServeHTTP_after_request (p : ReverseProxy) (req outreq : Request)
    (w w1 : World) :
  outbound_request p req w = Next outreq w1 →
  run (ServeHTTP p req) w =
    let w2 := with_sent (sent w ++ [outreq]) w1 in
    match transport_of p w (store w1) outreq with
    | None =>
        (Returned, with_rw (rw_WriteHeader 500 (rw w)) (with_body None w2))
    | Some res =>
        run (relay_response p res)
            (with_body (fresh_body res) w2)
    end.
Proof.
  intros Hreq. pose proof (outbound_request_frame _ _ _ _ _ Hreq) as Hw1.
  unfold run, ServeHTTP.
  erewrite bind_Next; [|reflexivity].
  erewrite bind_Next; [|exact Hreq].
  erewrite bind_Next; [|reflexivity].
  unfold transport_of. cbn zeta.
  assert (Hs : sent w1 = sent w) by (rewrite Hw1; by destruct w).
  assert (Hr : rw w1 = rw w) by (rewrite Hw1; by destruct w).
  rewrite Hs.
  destruct (default (DefaultTransport w) (Transport p) (store w1) outreq)
    as [res|]; [done|].
  erewrite bind_Next; [|reflexivity].
  unfold return_. simpl. by rewrite Hr.
Qed.

(* ===================================================================== *)
(** ** The relay works on the client side and on the body only *)
(* ===================================================================== *)

Section keeps_store.

Lemma keeps_store_ret {A : Type} (a : A) : keeps_store (mret a : M A).
Proof. by intros w. Qed.

Lemma keeps_store_halt {A : Type} (e : Exit) :
  keeps_store (λ w, Halt e w : Result A).
Proof. by intros w. Qed.

Lemma keeps_store_bind {A B : Type} (m : M A) (k : A → M B) :
  keeps_store m → (∀ a, keeps_store (k a)) → keeps_store (m ≫= k).
Proof.
  intros Hm Hk w. rewrite bind_eq. specialize (Hm w).
  destruct (m w) as [a w1|e w1]; [|done].
  specialize (Hk a w1). destruct (k a w1) as [b w2|e w2];
    destruct Hk as [-> ->]; done.
Qed.

Lemma keeps_store_get : keeps_store get.
Proof. by intros w. Qed.

Lemma keeps_store_with_rw (f : World → ResponseWriter) :
  keeps_store (modify (λ w, with_rw (f w) w)).
Proof. by intros w. Qed.

Lemma keeps_store_with_task (t : Task) : keeps_store (modify (with_task t)).
Proof. by intros w. Qed.

Lemma keeps_store_WriteHeader (code : Z) : keeps_store (WriteHeader code).
Proof. by intros w. Qed.

Lemma keeps_store_update_rw_header (f : Header → Header) :
  keeps_store (update_rw_header f).
Proof. by intros w. Qed.

Lemma keeps_store_Write (dst : Writer) (p : list byte) :
  keeps_store (Write dst p).
Proof.
  destruct dst as [|latency]; unfold Write, maxLatencyWriter_Write.
  - apply keeps_store_bind; [apply keeps_store_get | intros w0].
    destruct (rw_Write p (rw w0)) as [c ok].
    apply keeps_store_bind; [by intros w | intros _; apply keeps_store_ret].
  - apply keeps_store_bind; [apply keeps_store_get | intros w0].
    apply keeps_store_bind.
    { destruct (task w0); first [apply keeps_store_with_task | apply keeps_store_ret]. }
    intros _.
    apply keeps_store_bind; [apply keeps_store_get | intros w1].
    destruct (rw_Write p (rw w1)) as [c ok].
    apply keeps_store_bind; [by intros w | intros _].
    destruct ok; [apply keeps_store_ret|].
    apply keeps_store_bind; [apply keeps_store_get | intros w2].
    destruct (task w2); try apply keeps_store_halt.
    destruct (stop_received w2); [|apply keeps_store_halt].
    apply keeps_store_bind; [apply keeps_store_with_task | intros _].
    apply keeps_store_ret.
Qed.

Lemma keeps_store_set_pending (chunks : list (list byte)) :
  keeps_store (Go_io.set_pending chunks).
Proof. by intros w. Qed.

Lemma keeps_store_Copy_loop (dst : Writer) (chunks : list (list byte)) :
  keeps_store (Go_io.Copy_loop dst chunks).
Proof.
  induction chunks as [|c rest IH]; [apply keeps_store_ret|].
  simpl.
  apply keeps_store_bind; [apply keeps_store_set_pending | intros _].
  destruct (0 <? length c)%nat; [|exact IH].
  apply keeps_store_bind; [apply keeps_store_Write | intros ok].
  destruct ok; [exact IH | apply keeps_store_ret].
Qed.

Lemma keeps_store_Copy (dst : Writer) : keeps_store (Go_io.Copy dst).
Proof.
  unfold Go_io.Copy.
  apply keeps_store_bind; [apply keeps_store_get | intros w0].
  destruct (body w0); [apply keeps_store_Copy_loop | apply keeps_store_halt].
Qed.

Lemma keeps_store_scan_forbiddens (loc : string) (fs : list string) :
  keeps_store (scan_forbiddens loc fs).
Proof.
  induction fs as [|f fs IH]; [apply keeps_store_ret|].
  simpl. destruct (Go_strings.HasPrefix loc f); [|exact IH].
  apply keeps_store_bind; [apply keeps_store_WriteHeader | intros _].
  apply keeps_store_halt.
Qed.

Lemma keeps_store_relay_body (p : ReverseProxy) (res : Response) :
  keeps_store (relay_body p res).
Proof.
  unfold relay_body.
  destruct (Response.Body res); [|apply keeps_store_ret].
  apply keeps_store_bind; [apply keeps_store_get | intros w1].
  apply keeps_store_bind.
  { destruct (_ && _); [|apply keeps_store_ret].
    apply keeps_store_bind; [apply keeps_store_with_task | intros _].
    apply keeps_store_ret. }
  intros dst.
  destruct (Response.StatusCode res =? 200)%Z; [|apply keeps_store_Copy].
  destruct (Response.Header res !! "Content-Type") as [[|ct cts]|];
    [apply keeps_store_halt | | apply keeps_store_Copy].
  destruct (String.eqb ct _); [|apply keeps_store_Copy].
  apply keeps_store_bind.
  { unfold Go_io.ReadAll.
    apply keeps_store_bind; [apply keeps_store_get | intros w2].
    destruct (body w2); [|apply keeps_store_halt].
    apply keeps_store_bind; [apply keeps_store_set_pending | intros _].
    apply keeps_store_ret. }
  intros buf.
  apply keeps_store_bind; [|intros _; apply keeps_store_halt].
  unfold Go_io.Copy_buffer. destruct (0 <? _)%nat; [|apply keeps_store_ret].
  apply keeps_store_bind; [apply keeps_store_Write | intros _].
  apply keeps_store_ret.
Qed.

Lemma keeps_store_relay_response (p : ReverseProxy) (res : Response) :
  keeps_store (relay_response p res).
Proof.
  unfold relay_response.
  apply keeps_store_bind; [apply keeps_store_get | intros w0].
  apply keeps_store_bind; [apply keeps_store_update_rw_header | intros _].
  apply keeps_store_bind.
  { destruct (bool_decide _); [|apply keeps_store_ret].
    destruct (Response.Header res !! "Location") as [[|loc locs]|];
      [apply keeps_store_halt | apply keeps_store_scan_forbiddens
      | apply keeps_store_ret]. }
  intros _.
  apply keeps_store_bind; [apply keeps_store_WriteHeader | intros _].
  apply keeps_store_relay_body.
Qed.

End keeps_store.

(** The outbound request is sent once, and the store at the end of the
    cycle is the store that the transport was given. *)
Lemma ServeHTTP_store_sent (p : ReverseProxy) (req outreq : Request)
    (w w1 : World) :
  outbound_request p req w = Next outreq w1 →
  ∃ e w',
    run (ServeHTTP p req) w = (e, w')
    ∧ store w' = store w1
    ∧ sent w' = sent w ++ [outreq].
Proof.
  intros Hreq. rewrite (ServeHTTP_after_request _ _ _ _ _ Hreq). cbn zeta.
  destruct (transport_of p w (store w1) outreq) as [res|].
  - unfold run.
    pose proof (keeps_store_relay_response p res
                  (with_body (fresh_body res)
                     (with_sent (sent w ++ [outreq]) w1))) as Hk.
    destruct (relay_response p res _) as [[] w'|e w'];
      destruct Hk as [Hst Hse]; eexists _, _; (split; [reflexivity|]);
      by rewrite Hst, Hse.
  - by eexists _, _.
Qed.

(* ===================================================================== *)
(** ** The header map of the outbound request *)
(* ===================================================================== *)

Lemma forwarded_for_Connection (addr : string) (h : Header) :
  h !! "Connection" = None →
  forwarded_for addr h !! "Connection" = None.
Proof.
  intros Hh. unfold forwarded_for.
  destruct (Go_net.SplitHostPort addr) as [[clientIp port]|]; [|done].
  unfold Set_. by rewrite lookup_insert_ne.
Qed.

Lemma forwarded_for_value (addr ip port : string) (h : Header) :
  Go_net.SplitHostPort addr = Some (ip, port) →
  forwarded_for addr h !! "X-Forwarded-For" = Some [ip].
Proof.
  intros Hs. unfold forwarded_for. rewrite Hs.
  unfold Set_. by rewrite lookup_insert_eq.
Qed.

(** C7, as the code has it.  When the first [Connection] value of the
    inbound request is not empty, the header map of the outbound request
    is a map of its own (another object than the map of the inbound
    request, which keeps its contents through the whole cycle) and has
    no [Connection] entry. *)
Theorem Connection_stripped_on_copy (p : ReverseProxy) (target u : URL)
    (req : Request) (w : World) (h : Header) :
  Director p = director target →
  urls (store w) !! Request.URL req = Some u →
  hdrs (store w) !! Request.Header req = Some h →
  Get h "Connection" ≠ "" →
  ∃ e w' outreq h',
    run (ServeHTTP p req) w = (e, w')
    ∧ sent w' = sent w ++ [outreq]
    ∧ Request.Header outreq ≠ Request.Header req
    ∧ hdrs (store w') !! Request.Header outreq = Some h'
    ∧ h' !! "Connection" = None
    ∧ hdrs (store w') !! Request.Header req = Some h.
Proof.
  intros HD Hu Hh Hc.
  pose proof (outbound_request_copied p target req w u h HD Hu Hh Hc) as Hreq.
  destruct (ServeHTTP_store_sent _ _ _ _ _ Hreq) as (e & w' & Hrun & Hst & Hse).
  pose proof (lookup_lt_Some _ _ _ Hh) as Hlt.
  eexists e, w', _, _. split; [exact Hrun|]. split; [exact Hse|].
  rewrite Hst. unfold outbound_struct. wsimpl.
  split; [lia|].
  split; [by apply list_lookup_middle|].
  split.
  - apply forwarded_for_Connection. unfold Del. apply lookup_delete_eq.
  - by rewrite lookup_app_l.
Qed.

Lemma Connection_stripped_on_copy_witness :
  ∃ e w' outreq h',
    run (ServeHTTP example_proxy example_request)
        (example_world {[ "Connection" := ["keep-alive"] ]} no_backend fresh_client)
      = (e, w')
    ∧ sent w' = [] ++ [outreq]
    ∧ Request.Header outreq ≠ 0
    ∧ hdrs (store w') !! Request.Header outreq = Some h'
    ∧ h' !! "Connection" = None
    ∧ hdrs (store w') !! 0 = Some {[ "Connection" := ["keep-alive"] ]}.
Proof.
  apply (Connection_stripped_on_copy example_proxy example_target example_url
           example_request
           (example_world {[ "Connection" := ["keep-alive"] ]} no_backend
              fresh_client)
           {[ "Connection" := ["keep-alive"] ]});
    [reflexivity | reflexivity | reflexivity | vm_compute; discriminate].
Defined.

(** C7, as the claim states it, fails: an inbound request that carries a
    [Connection] header whose value is empty is sent on with the very
    map of the inbound request, [Connection] entry included. *)
Lemma Connection_header_counterexample :
  ∃ e w' outreq h',
    run (ServeHTTP example_proxy example_request)
        (example_world {[ "Connection" := [""] ]} no_backend fresh_client)
      = (e, w')
    ∧ sent w' = [outreq]
    ∧ Request.Header outreq = Request.Header example_request
    ∧ hdrs (store w') !! Request.Header outreq = Some h'
    ∧ h' !! "Connection" = Some [""].
Proof.
  pose proof (outbound_request_shared example_proxy example_target
                example_request
                (example_world {[ "Connection" := [""] ]} no_backend fresh_client)
                example_url {[ "Connection" := [""] ]}
                eq_refl eq_refl eq_refl eq_refl) as Hreq.
  destruct (ServeHTTP_store_sent _ _ _ _ _ Hreq) as (e & w' & Hrun & Hst & Hse).
  eexists e, w', _, _. split; [exact Hrun|]. split; [exact Hse|].
  rewrite Hst. split; [reflexivity|]. split; [reflexivity|].
  by vm_compute.
Qed.

(** C10.  When the remote address of the inbound request splits into
    host and port, the header map of the outbound request binds
    [X-Forwarded-For] to the host as its single value, whatever values
    the inbound request carried under that key. *)
Theorem forwarded_for_is_client_ip (p : ReverseProxy) (target u : URL)
    (req : Request) (w : World) (h : Header) (ip port : string) :
  Director p = director target →
  urls (store w) !! Request.URL req = Some u →
  hdrs (store w) !! Request.Header req = Some h →
  Go_net.SplitHostPort (Request.RemoteAddr req) = Some (ip, port) →
  ∃ e w' outreq h',
    run (ServeHTTP p req) w = (e, w')
    ∧ sent w' = sent w ++ [outreq]
    ∧ hdrs (store w') !! Request.Header outreq = Some h'
    ∧ h' !! "X-Forwarded-For" = Some [ip]
    ∧ Get h' "X-Forwarded-For" = ip.
Proof.
  intros HD Hu Hh Hs.
  pose proof (lookup_lt_Some _ _ _ Hh) as Hlt.
  assert (HG : ∀ h0 : Header,
             h0 !! "X-Forwarded-For" = Some [ip] → Get h0 "X-Forwarded-For" = ip).
  { intros h0 H0. unfold Get, index.
    change (CanonicalMIMEHeaderKey "X-Forwarded-For") with "X-Forwarded-For".
    by rewrite H0. }
  destruct (String.eqb_spec (Get h "Connection") "") as [Hc|Hc].
  - pose proof (outbound_request_shared p target req w u h HD Hu Hh Hc) as Hreq.
    destruct (ServeHTTP_store_sent _ _ _ _ _ Hreq) as (e & w' & Hrun & Hst & Hse).
    eexists e, w', _, _. split; [exact Hrun|]. split; [exact Hse|].
    rewrite Hst. unfold outbound_struct. wsimpl.
    split; [by apply list_lookup_insert_eq|].
    pose proof (forwarded_for_value _ _ _ h Hs). auto.
  - pose proof (outbound_request_copied p target req w u h HD Hu Hh Hc) as Hreq.
    destruct (ServeHTTP_store_sent _ _ _ _ _ Hreq) as (e & w' & Hrun & Hst & Hse).
    eexists e, w', _, _. split; [exact Hrun|]. split; [exact Hse|].
    rewrite Hst. unfold outbound_struct. wsimpl.
    split; [by apply list_lookup_middle|].
    pose proof (forwarded_for_value _ _ _
                  (Del (copyHeader (range_order w) ∅ h) "Connection") Hs). auto.
Qed.

Lemma forwarded_for_is_client_ip_witness :
  ∃ e w' outreq h',
    run (ServeHTTP example_proxy example_request)
        (example_world {[ "X-Forwarded-For" := ["6.6.6.6"; "7.7.7.7"] ]}
           no_backend fresh_client)
      = (e, w')
    ∧ sent w' = [] ++ [outreq]
    ∧ hdrs (store w') !! Request.Header outreq = Some h'
    ∧ h' !! "X-Forwarded-For" = Some ["1.2.3.4"]
    ∧ Get h' "X-Forwarded-For" = "1.2.3.4".
Proof.
  apply (forwarded_for_is_client_ip example_proxy example_target example_url
           example_request
           (example_world {[ "X-Forwarded-For" := ["6.6.6.6"; "7.7.7.7"] ]}
              no_backend fresh_client)
           {[ "X-Forwarded-For" := ["6.6.6.6"; "7.7.7.7"] ]} "1.2.3.4" "5678");
    reflexivity.
Defined.

(** Without a [Connection] value, the forwarded-for entry is written
    into the map of the inbound request. *)
Lemma inbound_header_written (p : ReverseProxy) (target u : URL)
    (req : Request) (w : World) (h : Header) (ip port : string) :
  Director p = director target →
  urls (store w) !! Request.URL req = Some u →
  hdrs (store w) !! Request.Header req = Some h →
  Get h "Connection" = "" →
  Go_net.SplitHostPort (Request.RemoteAddr req) = Some (ip, port) →
  ∃ e w',
    run (ServeHTTP p req) w = (e, w')
    ∧ hdrs (store w') !! Request.Header req
        = Some (<["X-Forwarded-For" := [ip]]> h).
Proof.
  intros HD Hu Hh Hc Hs.
  pose proof (lookup_lt_Some _ _ _ Hh) as Hlt.
  pose proof (outbound_request_shared p target req w u h HD Hu Hh Hc) as Hreq.
  destruct (ServeHTTP_store_sent _ _ _ _ _ Hreq) as (e & w' & Hrun & Hst & Hse).
  eexists e, w'. split; [exact Hrun|].
  rewrite Hst. wsimpl. rewrite list_lookup_insert_eq by done.
  unfold forwarded_for. by rewrite Hs.
Qed.

(** C1 fails on the code.  The inbound request below has no [Connection]
    header, so no copy of its header map is made, and line 150 sets
    [X-Forwarded-For] in the map of the inbound request itself: the map
    has one entry before the cycle and two after it. *)
Theorem ServeHTTP_writes_inbound_header :
  ∃ e w',
    run (ServeHTTP example_proxy example_request)
        (example_world example_header no_backend fresh_client)
      = (e, w')
    ∧ hdrs (store (example_world example_header no_backend fresh_client))
        !! Request.Header example_request
      = Some example_header
    ∧ example_header !! "X-Forwarded-For" = None
    ∧ hdrs (store w') !! Request.Header example_request
      = Some (<["X-Forwarded-For" := ["1.2.3.4"]]> example_header).
Proof.
  destruct (inbound_header_written example_proxy example_target example_url
              example_request
              (example_world example_header no_backend fresh_client)
              example_header "1.2.3.4" "5678"
              eq_refl eq_refl eq_refl eq_refl eq_refl)
    as (e & w' & Hrun & Hh).
  by eexists e, w'.
Qed.

(* ===================================================================== *)
(** ** The answer to the client: errors and filtered redirects *)
(* ===================================================================== *)

(** C6.  When the transport fails on the outbound request, the handler
    returns after that single call of the transport: the client gets
    status 500 and no body byte, and there is no response body. *)
Theorem transport_error_500 (p : ReverseProxy) (req outreq : Request)
    (w w1 : World) :
  outbound_request p req w = Next outreq w1 →
  transport_of p w (store w1) outreq = None →
  rw_status (rw w) = None →
  ∃ w',
    run (ServeHTTP p req) w = (Returned, w')
    ∧ rw_status (rw w') = Some 500%Z
    ∧ rw_body (rw w') = rw_body (rw w)
    ∧ sent w' = sent w ++ [outreq]
    ∧ body w' = None.
Proof.
  intros Hreq Ht Hfresh.
  rewrite (ServeHTTP_after_request _ _ _ _ _ Hreq). cbn zeta. rewrite Ht.
  eexists. split; [reflexivity|]. wsimpl.
  unfold rw_WriteHeader. rewrite Hfresh. by wsimpl.
Qed.

Lemma transport_error_500_witness :
  ∃ w',
    run (ServeHTTP example_proxy example_request)
        (example_world example_header no_backend fresh_client)
      = (Returned, w')
    ∧ rw_status (rw w') = Some 500%Z
    ∧ rw_body (rw w') = []
    ∧ sent w' = [] ++ [outbound_struct example_proxy 0 example_request]
    ∧ body w' = None.
Proof.
  eapply (transport_error_500 example_proxy example_request _
            (example_world example_header no_backend fresh_client));
    [|reflexivity|reflexivity].
  apply (outbound_request_shared example_proxy example_target example_request
           (example_world example_header no_backend fresh_client)
           example_url example_header); reflexivity.
Defined.

Section relay.

Context (p : ReverseProxy) (res : Response).

Lemma scan_forbiddens_hit (loc : string) (fs : list string) (w : World) :
  existsb (λ forbidden, Go_strings.HasPrefix loc forbidden) fs = true →
  scan_forbiddens loc fs w
    = Halt Returned (with_rw (rw_WriteHeader 404 (rw w)) w).
Proof.
  induction fs as [|f fs IH]; [done|]. simpl.
  destruct (Go_strings.HasPrefix loc f); [done | exact IH].
Qed.

Lemma scan_forbiddens_miss (loc : string) (fs : list string) (w : World) :
  existsb (λ forbidden, Go_strings.HasPrefix loc forbidden) fs = false →
  scan_forbiddens loc fs w = Next tt w.
Proof.
  induction fs as [|f fs IH]; [done|]. simpl.
  destruct (Go_strings.HasPrefix loc f); [done | exact IH].
Qed.

(** A filtered redirect: status 404 after the headers, and nothing else. *)
Lemma relay_response_filtered (w : World) :
  filtered p res = true →
  relay_response p res w
    = Halt Returned (with_rw (rw_WriteHeader 404 (relay_headers res w)) w).
Proof.
  unfold filtered. intros [Hst Hloc]%andb_true_iff.
  unfold relay_response.
  erewrite bind_Next; [|reflexivity].
  erewrite bind_Next; [|reflexivity].
  rewrite Hst.
  destruct (Response.Header res !! "Location") as [[|loc locs]|]; try done.
  erewrite bind_Halt; [reflexivity|].
  by rewrite scan_forbiddens_hit.
Qed.

(** Any other response: its status after the headers, then its body. *)
Lemma relay_response_pass (w : World) :
  filtered p res = false →
  (Response.StatusCode res ∈ [301; 302; 307]%Z → indexable res "Location") →
  relay_response p res w
    = relay_body p res
        (with_rw (rw_WriteHeader (Response.StatusCode res) (relay_headers res w)) w).
Proof.
  unfold filtered, indexable. intros Hf Hix.
  unfold relay_response.
  erewrite bind_Next; [|reflexivity].
  erewrite bind_Next; [|reflexivity].
  erewrite bind_Next; last first.
  { destruct (bool_decide_reflect (Response.StatusCode res ∈ [301; 302; 307]%Z))
      as [Hin|]; [|reflexivity].
    specialize (Hix Hin).
    destruct (Response.Header res !! "Location") as [[|loc locs]|];
      [done | | reflexivity].
    by apply scan_forbiddens_miss. }
  by erewrite bind_Next; [|reflexivity].
Qed.

End relay.

(** C4.  When the backend answers with status 301, 302 or 307 and the
    first [Location] value starts with one of the forbidden prefixes,
    the handler returns with status 404 for the client and without a
    body byte written; the body of the response is not read. *)
Theorem forbidden_redirect_404 (p : ReverseProxy) (req outreq : Request)
    (w w1 : World) (res : Response) (loc forbidden : string)
    (locs : list string) :
  outbound_request p req w = Next outreq w1 →
  transport_of p w (store w1) outreq = Some res →
  Response.StatusCode res ∈ [301; 302; 307]%Z →
  Response.Header res !! "Location" = Some (loc :: locs) →
  forbidden ∈ forbiddens p →
  Go_strings.HasPrefix loc forbidden = true →
  rw_status (rw w) = None →
  ∃ w',
    run (ServeHTTP p req) w = (Returned, w')
    ∧ rw_status (rw w') = Some 404%Z
    ∧ rw_body (rw w') = rw_body (rw w)
    ∧ body w' = fresh_body res.
Proof.
  intros Hreq Ht Hst Hloc Hin Hpre Hfresh.
  pose proof (outbound_request_frame _ _ _ _ _ Hreq) as Hw1.
  assert (Hr : rw w1 = rw w) by (rewrite Hw1; by destruct w).
  rewrite (ServeHTTP_after_request _ _ _ _ _ Hreq). cbn zeta. rewrite Ht.
  unfold run. rewrite relay_response_filtered; last first.
  { unfold filtered. rewrite Hloc, bool_decide_eq_true_2 by done. simpl.
    apply existsb_exists. exists forbidden. split; [|done].
    by apply list_elem_of_In. }
  eexists. split; [reflexivity|].
  unfold relay_headers, rw_WriteHeader. wsimpl. rewrite Hr, Hfresh. by wsimpl.
Qed.

Lemma forbidden_redirect_404_witness :
  ∃ w',
    run (ServeHTTP example_proxy example_request)
        (example_world example_header
           (backend (Response.mk 302 {[ "Location" := ["http://evil.test/x"] ]}
                       (Some [list_byte_of_string "moved"])))
           fresh_client)
      = (Returned, w')
    ∧ rw_status (rw w') = Some 404%Z
    ∧ rw_body (rw w') = []
    ∧ body w' = Some (mkReader [list_byte_of_string "moved"] false).
Proof.
  eapply (forbidden_redirect_404 example_proxy example_request _
            (example_world example_header _ fresh_client) _
            (Response.mk 302 {[ "Location" := ["http://evil.test/x"] ]}
               (Some [list_byte_of_string "moved"]))
            "http://evil.test/x" "http://evil.test" []).
  - apply (outbound_request_shared example_proxy example_target example_request
             (example_world example_header _ fresh_client)
             example_url example_header); reflexivity.
  - reflexivity.
  - apply (bool_decide_unpack _). by vm_compute.
  - reflexivity.
  - vm_compute. left.
  - reflexivity.
  - reflexivity.
Defined.

(* ===================================================================== *)
(** ** bytes.Index, bytes.Count and bytes.Replace *)
(* ===================================================================== *)

Section bytes_facts.

Import Go_bytes.

Lemma HasPrefix_spec (s sep : list byte) :
  HasPrefix s sep = true ↔ ∃ b, s = sep ++ b.
Proof.
  revert s. induction sep as [|c sep IH]; intros s; simpl.
  - split; [intros _; by exists s | done].
  - destruct s as [|d s]; simpl.
    + split; [done | intros [b Hb]; discriminate].
    + rewrite andb_true_iff, IH. split.
      * intros [Hcd [b ->]]. apply Byte.byte_dec_bl in Hcd as ->. by exists b.
      * intros [b [= -> ->]]. split; [by apply Byte.byte_dec_lb | by exists b].
Qed.

Lemma occurs_at_0 (old s : list byte) :
  occurs_at old s 0 ↔ HasPrefix s old = true.
Proof.
  rewrite HasPrefix_spec. split.
  - intros (a & b & -> & Ha). destruct a; [by exists b | done].
  - intros [b ->]. by exists [], b.
Qed.

Lemma occurs_at_S (old : list byte) (d : byte) (s : list byte) (i : nat) :
  occurs_at old (d :: s) (S i) ↔ occurs_at old s i.
Proof.
  split.
  - intros (a & b & Hs & Ha). destruct a as [|d' a]; [done|].
    injection Hs as -> ->. injection Ha as Ha. by exists a, b.
  - intros (a & b & -> & Ha). exists (d :: a), b. simpl. by rewrite Ha.
Qed.

Lemma occurs_at_nil (old : list byte) (i : nat) :
  old ≠ [] → ¬ occurs_at old [] i.
Proof.
  intros Hne (a & b & Hs & _). symmetry in Hs.
  apply app_eq_nil in Hs as [_ Hs]. apply app_eq_nil in Hs as [Hs _]. done.
Qed.

(** [Index] finds the first occurrence. *)
Lemma Index_Some (old s : list byte) (j : nat) :
  Index s old = Some j →
  s = take j s ++ old ++ drop (j + length old) s
  ∧ (j + length old ≤ length s)%nat
  ∧ ∀ i, i < j → ¬ occurs_at old s i.
Proof.
  revert j. induction s as [|d s IH]; intros j.
  - simpl. destruct (HasPrefix [] old) eqn:Hp; [|done].
    intros [= <-]. apply HasPrefix_spec in Hp as [b Hb].
    symmetry in Hb. apply app_eq_nil in Hb as [-> ->].
    split; [done | split; [done | lia]].
  - cbn [Index]. destruct (HasPrefix (d :: s) old) eqn:Hp.
    + intros [= <-]. 
      apply HasPrefix_spec in Hp as [b Hb].
      split; [|split; [rewrite Hb, length_app; simpl; lia | lia]].
      rewrite Hb at 1. simpl.
      rewrite Hb, drop_app_length. done.
    + destruct (Index s old) as [j'|] eqn:Hi; [|done].
      simpl. intros [= <-]. destruct (IH j' eq_refl) as (Hs & Hlen & Hfirst).
      split; [simpl; by rewrite <- Hs|].
      split; [lia|].
      intros [|i] Hlt.
      * rewrite occurs_at_0, Hp. done.
      * rewrite occurs_at_S. apply Hfirst. lia.
Qed.

Lemma Index_None (old s : list byte) :
  Index s old = None → ∀ i, ¬ occurs_at old s i.
Proof.
  induction s as [|d s IH]; cbn [Index].
  - destruct (HasPrefix [] old) eqn:Hp; [done|]. intros _ i (a & b & Hs & _).
    symmetry in Hs. apply app_eq_nil in Hs as [_ Hs].
    apply app_eq_nil in Hs as [-> _]. done.
  - destruct (HasPrefix (d :: s) old) eqn:Hp; [done|].
    destruct (Index s old) eqn:Hi; [done|]. intros _ [|i].
    + rewrite occurs_at_0, Hp. done.
    + rewrite occurs_at_S. by apply IH.
Qed.

(** The position that the loop of [Count] skips to. *)
Lemma Count_from_skip (old s : list byte) (k : nat) :
  Count_from k s old = Count_from 0 (drop k s) old.
Proof.
  revert k. induction s as [|d s IH]; intros k.
  - by rewrite drop_nil.
  - destruct k as [|k]; [done|]. simpl. apply IH.
Qed.

(** [Count] goes from one first occurrence to the next. *)
Lemma Count_from_Index (old s : list byte) :
  old ≠ [] →
  Count_from 0 s old =
    match Index s old with
    | None => 0
    | Some j => S (Count_from 0 (drop (j + length old) s) old)
    end.
Proof.
  intros Hne. induction s as [|d s IH].
  - simpl. destruct old; done.
  - cbn [Count_from Index]. destruct (HasPrefix (d :: s) old) eqn:Hp.
    + rewrite Count_from_skip. destruct old as [|c old]; [done|]. simpl.
      by rewrite Nat.sub_0_r.
    + rewrite IH. by destruct (Index s old).
Qed.

(** The loop of [Replace], run as many times as [Count] says, replaces
    every occurrence. *)
Lemma Replace_loop_spec (old new : list byte) (n i : nat) (s : list byte) :
  old ≠ [] →
  Count_from 0 s old = n →
  ReplacedAll old new s (Replace_loop old new n i s) n.
Proof.
  intros Hne. revert i s. induction n as [|n IH]; intros i s Hc.
  - simpl. apply ReplacedAll_none.
    rewrite Count_from_Index in Hc by done.
    destruct (Index s old) eqn:Hi; [done|]. by apply Index_None.
  - rewrite Count_from_Index in Hc by done.
    destruct (Index s old) as [j|] eqn:Hi; [|done].
    injection Hc as Hc.
    destruct (Index_Some _ _ _ Hi) as (Hs & Hlen & Hfirst).
    cbn [Replace_loop]. destruct old as [|c old']; [done|].
    rewrite Hi. cbn [default from_option id].
    set (old := c :: old') in *.
    set (rest := drop (j + length old) s) in *.
    assert (Hj : length (take j s) = j).
    { apply length_take_le. lia. }
    rewrite Hs at 1.
    apply ReplacedAll_next; [|by apply IH].
    intros i0 Hi0. rewrite <- Hs. apply Hfirst. lia.
Qed.

(** [Replace] with [n = -1] and an [old] that is not empty. *)
Lemma Replace_all_spec (old new s : list byte) :
  old ≠ [] →
  ReplacedAll old new s (Replace s old new (-1)) (Count s old).
Proof.
  intros Hne. unfold Replace, Count. destruct old as [|c old']; [done|].
  set (old := c :: old') in *. cbn [Z.eqb Z.ltb Z.compare orb].
  destruct (Nat.eqb_spec (Count_from 0 s old) 0) as [H0|H0].
  - rewrite H0. apply ReplacedAll_none.
    rewrite Count_from_Index in H0 by done.
    destruct (Index s old) eqn:Hi; [done|]. by apply Index_None.
  - by apply Replace_loop_spec.
Qed.

End bytes_facts.

Example Replace_scenario :
  Go_bytes.Replace (list_byte_of_string "visit backend:9000 now")
    (list_byte_of_string "backend:9000") (list_byte_of_string "example.com") (-1)
  = list_byte_of_string "visit example.com now".
Proof. reflexivity. Qed.

Example Replace_not_overlapping :
  Go_bytes.Replace (list_byte_of_string "aaa") (list_byte_of_string "aa")
    (list_byte_of_string "b") (-1)
  = list_byte_of_string "ba".
Proof. reflexivity. Qed.

(* ===================================================================== *)
(** ** The relay of the body to a client that takes every write *)
(* ===================================================================== *)

Section relay_body.

Context (p : ReverseProxy) (res : Response).

Lemma rw_Write_unlimited (b : list byte) (c : ResponseWriter) (code : Z) :
  rw_room c = None →
  rw_status c = Some code →
  rw_Write b c
    = (mkRW (rw_header c) (Some code) (rw_body c ++ b) None (rw_flusher c), true).
Proof.
  intros Hroom Hst. unfold rw_Write, rw_WriteHeader. rewrite Hst, Hroom.
  cbn [rw_room rw_header rw_status rw_body rw_flusher fmap option_fmap option_map].
  rewrite firstn_all, bool_decide_eq_true_2 by done. by rewrite Hst.
Qed.

(** A write that the client takes. *)
Lemma Write_unlimited (dst : Writer) (b : list byte) (w : World) (code : Z) :
  rw_room (rw w) = None →
  rw_status (rw w) = Some code →
  ∃ w',
    Write dst b w = Next true w'
    ∧ rw_room (rw w') = None
    ∧ rw_status (rw w') = Some code
    ∧ rw_body (rw w') = rw_body (rw w) ++ b
    ∧ body w' = body w.
Proof.
  intros Hroom Hst. destruct dst as [|latency]; unfold Write, maxLatencyWriter_Write.
  - erewrite bind_Next; [|reflexivity].
    rewrite (rw_Write_unlimited _ _ _ Hroom Hst).
    erewrite bind_Next; [|reflexivity].
    eexists. split; [reflexivity|]. by wsimpl.
  - erewrite bind_Next; [|reflexivity].
    assert (∃ t, (match task w with
                       | NotStarted => modify (with_task (go_flushLoop latency))
                       | _ => mret tt
                       end) w = Next tt (with_task t w)) as [t Ht].
    { destruct (task w) eqn:Htask; eexists; try reflexivity;
        rewrite ret_eq; f_equal; destruct w; simpl in *; by rewrite Htask. }
    erewrite bind_Next; [|exact Ht].
    erewrite bind_Next; [|reflexivity].
    wsimpl. rewrite (rw_Write_unlimited _ _ _ Hroom Hst).
    erewrite bind_Next; [|reflexivity].
    eexists. split; [reflexivity|]. by wsimpl.
Qed.

(** The loop of [io.Copy] reads the body to the end and writes all of it. *)
Lemma Copy_loop_unlimited (dst : Writer) (chunks : list (list byte))
    (w : World) (r : Reader) (code : Z) :
  rw_room (rw w) = None →
  rw_status (rw w) = Some code →
  body w = Some r →
  ∃ w',
    Go_io.Copy_loop dst chunks w = Next tt w'
    ∧ rw_room (rw w') = None
    ∧ rw_status (rw w') = Some code
    ∧ rw_body (rw w') = rw_body (rw w) ++ concat chunks
    ∧ body w' = Some (mkReader (match chunks with [] => pending r | _ => [] end)
                               (closed r)).
Proof.
  revert w r. induction chunks as [|c rest IH]; intros w r Hroom Hst Hb.
  - exists w. rewrite app_nil_r. destruct r. by rewrite Hb.
  - cbn [Go_io.Copy_loop concat].
    erewrite bind_Next; [|reflexivity].
    set (w1 := with_body _ w).
    assert (Hb1 : body w1 = Some (mkReader rest (closed r)))
      by (subst w1; wsimpl; by rewrite Hb).
    assert (Hfin : ∀ w2 : World,
               rw_room (rw w2) = None → rw_status (rw w2) = Some code →
               body w2 = body w1 → rw_body (rw w2) = rw_body (rw w) ++ c →
               ∃ w', Go_io.Copy_loop dst rest w2 = Next tt w'
                     ∧ rw_room (rw w') = None
                     ∧ rw_status (rw w') = Some code
                     ∧ rw_body (rw w') = rw_body (rw w) ++ c ++ concat rest
                     ∧ body w' = Some (mkReader [] (closed r))).
    { intros w2 Hr2 Hs2 Hb2 Hbody2. rewrite Hb1 in Hb2.
      destruct (IH w2 _ Hr2 Hs2 Hb2) as (w' & Hrun & ? & ? & Hbd & Hbody).
      exists w'. split; [done|]. split; [done|]. split; [done|].
      split; [by rewrite Hbd, Hbody2, app_assoc|].
      rewrite Hbody. by destruct rest. }
    destruct (0 <? length c)%nat eqn:Hlen.
    + destruct (Write_unlimited dst c w1 code) as (w2 & Hw & Hr2 & Hs2 & Hbd2 & Hb2);
        [done | done |].
      erewrite bind_Next; [|exact Hw]. by apply Hfin.
    + apply Nat.ltb_ge in Hlen. destruct c; [|simpl in Hlen; lia].
      apply Hfin; try done. subst w1. wsimpl. by rewrite app_nil_r.
Qed.

(** The choice of the writer [dst] changes nothing of the client side
    or of the body. *)
Lemma choose_dst (w w0 : World) :
  ∃ dst t,
    (if negb (FlushInterval p =? 0)%Z && rw_flusher (rw w0)
     then modify (with_task NotStarted);;
          mret (to_maxLatencyWriter (FlushInterval p))
     else mret to_rw) w
    = Next dst (with_task t w).
Proof.
  destruct (_ && _).
  - by exists (to_maxLatencyWriter (FlushInterval p)), NotStarted.
  - exists to_rw, (task w). rewrite ret_eq. f_equal. by destruct w.
Qed.

(** The whole relay of the body, for a response that was not filtered. *)
Lemma relay_body_unlimited (w : World) (code : Z) :
  rw_room (rw w) = None →
  rw_status (rw w) = Some code →
  body w = fresh_body res →
  indexable res "Content-Type" →
  ∃ w',
    run (relay_body p res) w = (Returned, w')
    ∧ rw_status (rw w') = Some code
    ∧ rw_body (rw w') = rw_body (rw w) ++ relayed_bytes p res
    ∧ body w' = drained_body res.
Proof.
  intros Hroom Hst Hb Hix.
  unfold relay_body, relayed_bytes, text_plain, body_bytes, run,
    fresh_body, drained_body, indexable in *.
  destruct (Response.Body res) as [chunks|]; cbn [default from_option id fmap option_fmap option_map] in *.
  2:{ exists w. by rewrite ret_eq, app_nil_r. }
  erewrite bind_Next; [|reflexivity].
  destruct (choose_dst w w) as (dst & t & Hdst).
  erewrite bind_Next; [|exact Hdst].
  set (w1 := with_task t w).
  assert (Hcopy : ∃ w',
             match Go_io.Copy dst w1 with
             | Next _ w' => (Returned, w')
             | Halt e w' => (e, w')
             end = (Returned, w')
             ∧ rw_status (rw w') = Some code
             ∧ rw_body (rw w') = rw_body (rw w) ++ concat chunks
             ∧ body w' = Some (mkReader [] false)).
  { unfold Go_io.Copy. erewrite bind_Next; [|reflexivity].
    replace (body w1) with (Some (mkReader chunks false)) by (by rewrite <- Hb).
    destruct (Copy_loop_unlimited dst chunks w1 _ code Hroom Hst
                (eq_sym (eq_sym Hb)))
      as (w' & Hrun & _ & Hs' & Hbd & Hbody).
    exists w'. cbn [pending closed] in *. rewrite Hrun.
    split; [done|]. split; [done|]. split; [done|].
    rewrite Hbody. by destruct chunks. }
  destruct (Response.StatusCode res =? 200)%Z; cbn [andb]; [|exact Hcopy].
  destruct (Response.Header res !! "Content-Type") as [[|ct cts]|];
    [done | | exact Hcopy].
  destruct (String.eqb ct _); [|exact Hcopy].
  unfold Go_io.ReadAll.
  erewrite bind_Next; last first.
  { erewrite bind_Next; [|reflexivity].
    replace (body w1) with (Some (mkReader chunks false)) by (by rewrite <- Hb).
    erewrite bind_Next; [|reflexivity]. reflexivity. }
  cbn [pending].
  set (w2 := with_body _ w1).
  set (b := Go_bytes.Replace _ _ _ _).
  unfold Go_io.Copy_buffer.
  assert (Hb2 : body w2 = Some (mkReader [] false)).
  { subst w2 w1. wsimpl. by rewrite Hb. }
  destruct (0 <? length b)%nat eqn:Hlen.
  - destruct (Write_unlimited dst b w2 code) as (w3 & Hw & Hr3 & Hs3 & Hbd3 & Hb3);
      [done | done |].
    erewrite bind_Next; last first.
    { erewrite bind_Next; [|exact Hw]. reflexivity. }
    exists w3. split; [done|]. split; [done|]. split; [done|].
    by rewrite Hb3.
  - apply Nat.ltb_ge in Hlen. destruct b; [|simpl in Hlen; lia].
    erewrite bind_Next; [|reflexivity].
    exists w2. split; [done|]. split; [done|].
    split; [by rewrite app_nil_r | done].
Qed.

End relay_body.

(* ===================================================================== *)
(** ** The text substitution, and the body resource *)
(* ===================================================================== *)


(** The handler for a response that is relayed, given to a client that
    takes every write: it returns, with the status of the response, the
    relayed bytes, and the body read to the end. *)
Lemma ServeHTTP_relayed (p : ReverseProxy) (req outreq : Request)
    (w w1 : World) (res : Response) :
  outbound_request p req w = Next outreq w1 →
  transport_of p w (store w1) outreq = Some res →
  filtered p res = false →
  (Response.StatusCode res ∈ [301; 302; 307]%Z → indexable res "Location") →
  indexable res "Content-Type" →
  rw_status (rw w) = None →
  client_accepts_all w →
  ∃ w',
    run (ServeHTTP p req) w = (Returned, w')
    ∧ rw_status (rw w') = Some (Response.StatusCode res)
    ∧ rw_body (rw w') = rw_body (rw w) ++ relayed_bytes p res
    ∧ body w' = drained_body res.
Proof.
  intros Hreq Ht Hf Hloc Hct Hfresh Hroom.
  pose proof (outbound_request_frame _ _ _ _ _ Hreq) as Hw1.
  assert (Hr : rw w1 = rw w) by (rewrite Hw1; by destruct w).
  rewrite (ServeHTTP_after_request _ _ _ _ _ Hreq). cbn zeta. rewrite Ht.
  unfold run at 1. rewrite relay_response_pass by done.
  set (w2 := with_rw _ _).
  destruct (relay_body_unlimited p res w2 (Response.StatusCode res))
    as (w' & Hrun & Hst & Hbd & Hbody); try done.
  - subst w2. unfold relay_headers, rw_WriteHeader. wsimpl.
    rewrite Hr, Hfresh. wsimpl. exact Hroom.
  - subst w2. unfold relay_headers, rw_WriteHeader. wsimpl.
    rewrite Hr, Hfresh. by wsimpl.
  - exists w'. unfold run in Hrun. rewrite Hrun.
    split; [done|]. split; [done|]. split; [|done].
    rewrite Hbd. subst w2. unfold relay_headers, rw_WriteHeader. wsimpl.
    rewrite Hr, Hfresh. by wsimpl.
Qed.



(** The scenario of the specification: the client reads
    [visit example.com now]. *)
Example text_plain_scenario :
  ∃ w',
    run (ServeHTTP example_proxy example_request)
        (example_world example_header (backend plain_text_reply) fresh_client)
      = (Returned, w')
    ∧ rw_status (rw w') = Some 200%Z
    ∧ rw_body (rw w') = list_byte_of_string "visit example.com now".
Proof.
  destruct (ServeHTTP_relayed example_proxy example_request
              (outbound_struct example_proxy 0 example_request)
              (example_world example_header (backend plain_text_reply)
                 fresh_client)
              _ plain_text_reply
              (outbound_request_shared example_proxy example_target
                 example_request
                 (example_world example_header (backend plain_text_reply)
                    fresh_client)
                 example_url example_header eq_refl eq_refl eq_refl eq_refl))
    as (w' & Hrun & Hst & Hbody & _); try done.
  by exists w'.
Qed.




(* ===================================================================== *)
(** ** The flush task of a [maxLatencyWriter] *)
(* ===================================================================== *)

Section flush_loop.

Import FlushLoop.

Lemma rw_Write_room_None (b : list byte) (d d' : ResponseWriter) (ok : bool) :
  rw_room d = None →
  rw_Write b d = (d', ok) →
  ok = true ∧ rw_room d' = None.
Proof.
  unfold rw_Write, rw_WriteHeader. intros Hroom.
  destruct (rw_status d); cbn [rw_room]; rewrite Hroom; cbn;
    intros [= <- <-]; by rewrite bool_decide_eq_true_2.
Qed.

Lemma invariant_start (chunks : list (list byte)) (c0 : ResponseWriter) :
  invariant chunks c0 (start chunks c0).
Proof.
  unfold invariant, start, after_write, after_failed_write. simpl.
  repeat split; try done; try lia; naive_solver.
Qed.

Lemma invariant_step (chunks : list (list byte)) (c0 : ResponseWriter)
    (c c' : Config) :
  invariant chunks c0 c → step c c' → invariant chunks c0 c'.
Proof.
  unfold invariant, after_write, after_failed_write.
  intros (Hle & Hret & Hsig & Haw & Hrem & Hroom) Hstep.
  inversion Hstep as
    [ f l d s n | rest f l d s n | b p rest f l d s n | p rest f d s n
    | p rest f d d' ok s n Hw | rest l d s n | ok rest f d s n
    | cp l d s n | cp d s n | cp d s n ];
    subst; cbn [copier flusher lk dst signals flushes remaining] in *.
  - (* end of the stream *)
    split; [done|]. split; [done|]. split; [by left|].
    split; [naive_solver|]. split; [done|]. naive_solver.
  - (* a read of no bytes *)
    split; [done|]. split; [done|]. split; [naive_solver|].
    split; [naive_solver|]. split; [done|]. naive_solver.
  - (* a chunk was read *)
    split; [done|]. split; [done|]. split; [naive_solver|].
    split; [naive_solver|]. split; [done|]. naive_solver.
  - (* the lock is taken *)
    split; [done|]. split; [done|]. split; [naive_solver|].
    split; [naive_solver|]. split; [done|]. naive_solver.
  - (* the write *)
    assert (s = 0) as ->.
    { destruct (decide (s = 1)) as [->|]; [|lia]. naive_solver. }
    assert (f ≠ TaskReturned) by (intros ->; naive_solver).
    split; [done|]. split; [destruct f; naive_solver|].
    split; [done|]. split; [destruct f; naive_solver|].
    split; [destruct f; naive_solver|].
    intros Hr. destruct (Hroom Hr) as [Hd _].
    destruct (rw_Write_room_None _ _ _ _ Hd Hw) as [-> Hd'].
    split; [done|]. split; [naive_solver | done].
  - (* the signal is received *)
    assert (s = 0) as ->.
    { destruct (decide (s = 1)) as [->|]; [|lia]. naive_solver. }
    split; [done|]. split; [done|]. split; [naive_solver|].
    split; [done|]. split; [done|]. naive_solver.
  - (* the lock is released *)
    split; [done|]. split; [done|].
    split; [destruct ok; naive_solver|].
    split; [destruct ok; naive_solver|].
    split; [naive_solver|].
    intros Hr. destruct (Hroom Hr) as (Hd & Hn & Hs0). split; [done|].
    split; [destruct ok; naive_solver | done].
  - (* a tick *)
    split; [done|]. split; [naive_solver|]. split; [done|].
    split; [done|]. split; [done|]. done.
  - (* the flush task takes the lock *)
    split; [done|]. split; [naive_solver|]. split; [done|].
    split; [done|]. split; [done|]. done.
  - (* the flush *)
    split; [done|]. split; [naive_solver|]. split; [done|].
    split; [done|]. split; [done|]. done.
Qed.

Lemma invariant_steps (chunks : list (list byte)) (c0 : ResponseWriter)
    (c : Config) :
  steps (start chunks c0) c → invariant chunks c0 c.
Proof.
  revert c. apply rtc_ind_r.
  - apply invariant_start.
  - intros y z _ Hstep Hy. by eapply invariant_step.
Qed.



(** A run of a copy of one chunk to a client that takes it. *)
Lemma run_to_completion :
  steps (start [example_chunk] fresh_client)
        (mkConfig CopyDone Select None
           (mkRW ∅ (Some 200%Z) example_chunk None true) 0 0).
Proof.
  eapply rtc_l; [apply step_read|].
  eapply rtc_l; [apply step_lock|].
  eapply rtc_l; [eapply (step_write _ _ _ _ _ true); reflexivity|].
  eapply rtc_l; [apply step_unlock|].
  eapply rtc_l; [apply step_eof|].
  reflexivity.
Qed.

(** A run of a copy of one chunk to a client that refuses it, with a
    tick of the flush task while [Write] holds the lock. *)
Lemma run_to_blocked_send :
  steps (start [example_chunk] refusing_client)
        (mkConfig (Sending []) TickWantLock (Some copying)
           (mkRW ∅ (Some 200%Z) [] (Some 0) true) 0 0).
Proof.
  eapply rtc_l; [apply step_read|].
  eapply rtc_l; [apply step_lock|].
  eapply rtc_l; [eapply (step_write _ _ _ _ _ false); reflexivity|].
  eapply rtc_l; [apply step_tick|].
  reflexivity.
Qed.

End flush_loop.




(* ===================================================================== *)
(** ** [copyHeader] and [Forbidden] *)
(* ===================================================================== *)

Section copyHeader_facts.

Lemma index_Add (h : Header) (key value k : string) :
  index (Add h key value) k
  = if decide (k = CanonicalMIMEHeaderKey key) then index h k ++ [value]
    else index h k.
Proof.
  unfold Add, index. destruct (decide (k = CanonicalMIMEHeaderKey key)) as [->|Hne].
  - by rewrite lookup_insert_eq.
  - by rewrite lookup_insert_ne.
Qed.

(** The inner loop: the values of one key, added one after the other. *)
Lemma index_Add_all (vv : list string) (h : Header) (key k : string) :
  index (foldl (λ dst v, Add dst key v) h vv) k
  = if decide (k = CanonicalMIMEHeaderKey key) then index h k ++ vv
    else index h k.
Proof.
  revert h. induction vv as [|v vv IH]; intros h; simpl.
  - destruct (decide _); [by rewrite app_nil_r | done].
  - rewrite IH, index_Add.
    destruct (decide _); [by rewrite <- app_assoc | done].
Qed.

(** The outer loop over entries with distinct canonical keys. *)
Lemma index_copy_entries (l : list (string * list string)) (dst : Header)
    (k : string) :
  NoDup l.*1 →
  Forall (λ e, CanonicalMIMEHeaderKey e.1 = e.1) l →
  index (foldl (λ dst '(k, vv), foldl (λ dst v, Add dst k v) dst vv) dst l) k
  = index dst k ++ index (list_to_map l) k.
Proof.
  revert dst. induction l as [|[k' vv] l IH]; intros dst Hnd Hcan.
  - simpl. unfold index at 3. rewrite lookup_empty. by rewrite app_nil_r.
  - apply NoDup_cons in Hnd as [Hk' Hnd]. apply Forall_cons in Hcan as [Hc Hcan].
    simpl in Hc. cbn [foldl]. rewrite IH, index_Add_all by done. rewrite Hc.
    cbn [list_to_map foldr]. unfold index at 5.
    destruct (decide (k = k')) as [->|Hne].
    + rewrite lookup_insert_eq. simpl.
      unfold index at 2. rewrite (not_elem_of_list_to_map_1 _ _ Hk').
      simpl. by rewrite app_nil_r.
    + by rewrite lookup_insert_ne.
Qed.

End copyHeader_facts.

(** X1.  [copyHeader] appends: when the keys of [src] are in canonical
    form, whatever the order of the walk over [src], every key of the
    result holds the values it had in [dst] followed by the values it has
    in [src], in their order.  Values are added, none is overwritten. *)
Theorem copyHeader_appends_values
    (range : Header → list (string * list string)) (dst src : Header)
    (k : string) :
  range src ≡ₚ map_to_list src →
  map_Forall (λ key _, CanonicalMIMEHeaderKey key = key) src →
  index (copyHeader range dst src) k = index dst k ++ index src k.
Proof.
  intros Hperm Hcan. unfold copyHeader.
  rewrite index_copy_entries.
  - rewrite (list_to_map_proper _ (map_to_list src)), list_to_map_to_list; [done| |done].
    rewrite Hperm. apply NoDup_fst_map_to_list.
  - rewrite Hperm. apply NoDup_fst_map_to_list.
  - rewrite Hperm. apply Forall_forall. intros [key vv] Hin.
    apply elem_of_map_to_list in Hin. by apply (Hcan key vv).
Qed.

Lemma copyHeader_appends_values_witness :
  index (copyHeader map_to_list {[ "Set-Cookie" := ["z=0"] ]}
           {[ "Set-Cookie" := ["a=1"; "b=2"] ]}) "Set-Cookie"
  = index ({[ "Set-Cookie" := ["z=0"] ]} : Header) "Set-Cookie"
    ++ index ({[ "Set-Cookie" := ["a=1"; "b=2"] ]} : Header) "Set-Cookie".
Proof.
  apply (copyHeader_appends_values map_to_list); [reflexivity|].
  by apply map_Forall_singleton.
Defined.

Lemma scan_forbiddens_snoc (loc prefix : string) (fs : list string) (w : World) :
  Go_strings.HasPrefix loc prefix = false →
  scan_forbiddens loc (fs ++ [prefix]) w = scan_forbiddens loc fs w.
Proof.
  intros Hp. induction fs as [|f fs IH]; simpl.
  - by rewrite Hp.
  - by destruct (Go_strings.HasPrefix loc f).
Qed.

(** X2.  [Forbidden] adds [prefix] to the filter and changes nothing
    else: a redirect (301, 302, 307) whose first [Location] value starts
    with [prefix] is answered with 404 from then on, and every other
    response is relayed exactly as before the call. *)
Theorem Forbidden_adds_prefix (p : ReverseProxy) (prefix : string)
    (res : Response) (w : World) :
  relay_response (Forbidden p prefix) res w
  = if bool_decide (Response.StatusCode res ∈ [301; 302; 307]%Z)
       && match Response.Header res !! "Location" with
          | Some (loc :: _) => Go_strings.HasPrefix loc prefix
          | _ => false
          end
    then Halt Returned (with_rw (rw_WriteHeader 404 (relay_headers res w)) w)
    else relay_response p res w.
Proof.
  destruct (bool_decide (Response.StatusCode res ∈ [301; 302; 307]%Z)) eqn:Hst;
    cbn [andb].
  - destruct (Response.Header res !! "Location") as [[|loc locs]|] eqn:Hloc.
    + unfold relay_response. by rewrite Hst, Hloc.
    + destruct (Go_strings.HasPrefix loc prefix) eqn:Hp.
      * apply relay_response_filtered. unfold filtered. rewrite Hst, Hloc.
        cbn [andb forbiddens Forbidden]. rewrite existsb_app. simpl.
        rewrite Hp. by rewrite orb_true_r.
      * unfold relay_response.
        do 2 (erewrite bind_Next; [|reflexivity]).
        symmetry. do 2 (erewrite bind_Next; [|reflexivity]). symmetry.
        rewrite Hst, Hloc. cbn [forbiddens Forbidden].
        rewrite (bind_eq (scan_forbiddens loc (forbiddens p ++ [prefix]))).
        rewrite (bind_eq (scan_forbiddens loc (forbiddens p))).
        by rewrite scan_forbiddens_snoc.
    + unfold relay_response. by rewrite Hst, Hloc.
  - unfold relay_response. by rewrite Hst.
Qed.

(* ===================================================================== *)
(** ** The lock and the bytes of a copy through a [maxLatencyWriter] *)
(* ===================================================================== *)

Section flush_loop_more.

Import FlushLoop.

Lemma rw_Write_body (b : list byte) (d d' : ResponseWriter) (ok : bool) :
  rw_Write b d = (d', ok) →
  ∃ n, rw_body d' = rw_body d ++ take n b ∧ (ok = true → take n b = b).
Proof.
  unfold rw_Write. intros [= <- <-]. cbn [rw_body].
  assert (Hb : rw_body (rw_WriteHeader 200 d) = rw_body d)
    by (unfold rw_WriteHeader; by destruct (rw_status d)).
  rewrite Hb. eexists. split; [reflexivity|].
  intros Hok. apply bool_decide_eq_true in Hok. rewrite Hok.
  apply firstn_all.
Qed.

Lemma byte_account_start (chunks : list (list byte)) (c0 : ResponseWriter) :
  byte_account chunks c0 (start chunks c0).
Proof.
  unfold byte_account, lock_discipline, start. simpl.
  split; [done|]. split; [done|]. exists []. by rewrite app_nil_r.
Qed.

Lemma byte_account_step (chunks : list (list byte)) (c0 : ResponseWriter)
    (c c' : Config) :
  byte_account chunks c0 c → step c c' → byte_account chunks c0 c'.
Proof.
  unfold byte_account, lock_discipline.
  intros (Hlock & Hroom & lost & Hbytes & Hlost) Hstep.
  inversion Hstep as
    [ f l d s n | rest f l d s n | b p rest f l d s n | p rest f d s n
    | p rest f d d' ok s n Hw | rest l d s n | ok rest f d s n
    | cp l d s n | cp d s n | cp d s n ];
    subst; cbn [copier flusher lk dst signals flushes to_write in_Write] in *.
  - split; [destruct l as [[]|]; naive_solver|]. split; [done|]. by exists lost.
  - split; [destruct l as [[]|]; naive_solver|]. split; [done|]. by exists lost.
  - split; [destruct l as [[]|]; naive_solver|]. split; [done|]. by exists lost.
  - split; [naive_solver|]. split; [done|]. by exists lost.
  - destruct (rw_Write_body _ _ _ _ Hw) as (k & Hbody & Hall).
    split; [destruct ok, f; naive_solver|].
    split.
    { intros Hr. by destruct (rw_Write_room_None _ _ _ _ (Hroom Hr) Hw). }
    destruct ok.
    + exists lost. split; [|done]. cbn [to_write].
      rewrite Hbody, Hall by done. rewrite <- Hbytes.
      by rewrite <- !app_assoc.
    + exists (drop k p ++ concat rest ++ lost). split.
      * cbn [to_write]. rewrite Hbody, <- Hbytes. simpl.
        rewrite <- !app_assoc. f_equal.
        by rewrite (app_assoc (take k p)), take_drop.
      * intros Hr.
        by destruct (rw_Write_room_None _ _ _ _ (Hroom Hr) Hw).
  - split; [destruct l as [[]|]; naive_solver|]. split; [done|]. by exists lost.
  - split; [destruct ok; naive_solver|]. split; [done|]. exists lost.
    split; [|done]. by destruct ok.
  - split; [destruct l as [[]|]; naive_solver|]. split; [done|]. by exists lost.
  - split; [naive_solver|]. split; [done|]. by exists lost.
  - split; [naive_solver|]. split; [done|]. by exists lost.
Qed.

Lemma byte_account_steps (chunks : list (list byte)) (c0 : ResponseWriter)
    (c : Config) :
  steps (start chunks c0) c → byte_account chunks c0 c.
Proof.
  revert c. apply rtc_ind_r.
  - apply byte_account_start.
  - intros y z _ Hstep Hy. by eapply byte_account_step.
Qed.

(** The blocked send: no goroutine can take a step. *)
Lemma blocked_send_stuck (rest : list (list byte)) (d : ResponseWriter)
    (s n : nat) :
  stuck (mkConfig (Sending rest) TickWantLock (Some copying) d s n).
Proof. intros c' Hstep. inversion Hstep. Qed.

End flush_loop_more.

(** X3.  The mutex does its work: all through a copy, the goroutine of
    [flushLoop] is never inside [m.dst.Flush()] while the copying
    goroutine is inside [Write], and the lock is held exactly by the one
    that is in its critical section. *)
Theorem Write_and_Flush_exclude (chunks : list (list byte))
    (c0 : ResponseWriter) (c : FlushLoop.Config) :
  FlushLoop.steps (FlushLoop.start chunks c0) c →
  lock_discipline c
  ∧ ¬ (in_Write (FlushLoop.copier c) = true
       ∧ FlushLoop.flusher c = FlushLoop.Flushing).
Proof.
  intros Hs. destruct (byte_account_steps _ _ _ Hs) as (Hlock & _).
  split; [done|]. unfold lock_discipline in Hlock.
  intros [Hin Hfl].
  destruct (FlushLoop.lk c) as [[]|]; destruct Hlock as [Hlin Hlfl]; congruence.
Qed.

Lemma Write_and_Flush_exclude_witness :
  let c := FlushLoop.mkConfig (FlushLoop.Sending []) FlushLoop.TickWantLock
             (Some FlushLoop.copying)
             (mkRW ∅ (Some 200%Z) [] (Some 0) true) 0 0 in
  lock_discipline c
  ∧ ¬ (in_Write (FlushLoop.copier c) = true
       ∧ FlushLoop.flusher c = FlushLoop.Flushing).
Proof.
  exact (Write_and_Flush_exclude [example_chunk] refusing_client _
           run_to_blocked_send).
Defined.

(** X4.  The only deadlock of a copy is the blocked send: a reachable
    state in which no goroutine can take a step is either the end (the
    copy has returned and the flush task was never started or has
    returned), or the copying goroutine is at the send on [done], inside
    [Write] with the lock, while the flush task has taken a tick and
    waits for the lock. *)
Theorem only_deadlock_is_blocked_send (chunks : list (list byte))
    (c0 : ResponseWriter) (c : FlushLoop.Config) :
  FlushLoop.steps (FlushLoop.start chunks c0) c →
  FlushLoop.stuck c →
  (FlushLoop.copier c = FlushLoop.CopyDone
   ∧ (FlushLoop.flusher c = FlushLoop.NoTask
      ∨ FlushLoop.flusher c = FlushLoop.TaskReturned))
  ∨ (∃ rest, FlushLoop.copier c = FlushLoop.Sending rest
             ∧ FlushLoop.flusher c = FlushLoop.TickWantLock
             ∧ FlushLoop.lk c = Some FlushLoop.copying).
Proof.
  intros Hs Hstuck.
  destruct (byte_account_steps _ _ _ Hs) as (Hlock & _).
  destruct (invariant_steps _ _ _ Hs) as (_ & Hret & Hsig & Haw & _).
  unfold lock_discipline, FlushLoop.after_write, FlushLoop.stuck in *.
  destruct c as [cp f l d s n];
    cbn [FlushLoop.copier FlushLoop.flusher FlushLoop.lk FlushLoop.signals] in *.
  destruct cp as [[|[|b p] cs]|p rest|p rest|rest|ok rest|].
  - exfalso. eapply Hstuck. apply FlushLoop.step_eof.
  - exfalso. eapply Hstuck. apply FlushLoop.step_read_empty.
  - exfalso. eapply Hstuck. apply FlushLoop.step_read.
  - exfalso. destruct l as [[]|]; cbn [in_Write] in Hlock.
    + naive_solver.
    + destruct Hlock as [_ ->]. eapply Hstuck. apply FlushLoop.step_flush.
    + eapply Hstuck. apply FlushLoop.step_lock.
  - exfalso. destruct l as [[]|]; cbn [in_Write] in Hlock; [|naive_solver..].
    destruct (rw_Write p d) as [d' ok] eqn:Hw.
    eapply Hstuck. by apply (FlushLoop.step_write _ _ _ _ d' ok).
  - destruct l as [[]|]; cbn [in_Write] in Hlock; [|naive_solver..].
    destruct f.
    + exfalso. apply Haw; [|done]. left. by eexists.
    + exfalso. eapply Hstuck. apply FlushLoop.step_signal.
    + right. by exists rest.
    + naive_solver.
    + exfalso. destruct Hret as [Hret _]. specialize (Hret eq_refl).
      destruct (Hsig Hret) as [?|[? ?]]; done.
  - exfalso. destruct l as [[]|]; cbn [in_Write] in Hlock; [|naive_solver..].
    eapply Hstuck. apply FlushLoop.step_unlock.
  - destruct f.
    + left. by split; [|left].
    + exfalso. eapply Hstuck. apply FlushLoop.step_tick.
    + exfalso. destruct l as [[]|]; cbn [in_Write] in Hlock; [naive_solver..|].
      eapply Hstuck. apply FlushLoop.step_flush_lock.
    + exfalso. destruct l as [[]|]; cbn [in_Write] in Hlock; [naive_solver| |naive_solver].
      eapply Hstuck. apply FlushLoop.step_flush.
    + left. by split; [|right].
Qed.

Lemma only_deadlock_is_blocked_send_witness :
  let c := FlushLoop.mkConfig (FlushLoop.Sending []) FlushLoop.TickWantLock
             (Some FlushLoop.copying)
             (mkRW ∅ (Some 200%Z) [] (Some 0) true) 0 0 in
  (FlushLoop.copier c = FlushLoop.CopyDone
   ∧ (FlushLoop.flusher c = FlushLoop.NoTask
      ∨ FlushLoop.flusher c = FlushLoop.TaskReturned))
  ∨ (∃ rest, FlushLoop.copier c = FlushLoop.Sending rest
             ∧ FlushLoop.flusher c = FlushLoop.TickWantLock
             ∧ FlushLoop.lk c = Some FlushLoop.copying).
Proof.
  exact (only_deadlock_is_blocked_send [example_chunk] refusing_client _
           run_to_blocked_send (blocked_send_stuck _ _ _ _)).
Defined.

(** X5.  Whatever the interleaving with the flush task, the client has
    at every moment of a copy received a prefix of the body, in order;
    and when it takes every write, it has received the whole body once
    the copy has returned. *)
Theorem copy_delivers_in_order (chunks : list (list byte))
    (c0 : ResponseWriter) (c : FlushLoop.Config) :
  FlushLoop.steps (FlushLoop.start chunks c0) c →
  (∃ tail, rw_body (FlushLoop.dst c) ++ tail = rw_body c0 ++ concat chunks)
  ∧ (rw_room c0 = None →
     FlushLoop.copier c = FlushLoop.CopyDone →
     rw_body (FlushLoop.dst c) = rw_body c0 ++ concat chunks).
Proof.
  intros Hs.
  destruct (byte_account_steps _ _ _ Hs) as (_ & _ & lost & Hbytes & Hlost).
  split; [by eexists|].
  intros Hroom Hdone. rewrite Hdone, (Hlost Hroom) in Hbytes.
  by rewrite !app_nil_r in Hbytes.
Qed.

Lemma copy_delivers_in_order_witness :
  let c := FlushLoop.mkConfig FlushLoop.CopyDone FlushLoop.Select None
             (mkRW ∅ (Some 200%Z) example_chunk None true) 0 0 in
  (∃ tail, rw_body (FlushLoop.dst c) ++ tail
           = rw_body fresh_client ++ concat [example_chunk])
  ∧ (rw_room fresh_client = None →
     FlushLoop.copier c = FlushLoop.CopyDone →
     rw_body (FlushLoop.dst c) = rw_body fresh_client ++ concat [example_chunk]).
Proof.
  exact (copy_delivers_in_order [example_chunk] fresh_client _ run_to_completion).
Defined.

(* ===================================================================== *)
(** ** What the relay leaves alone *)
(* ===================================================================== *)

Section keeps_rw_header.

Lemma keeps_rw_header_ret {A : Type} (a : A) : keeps_rw_header (mret a : M A).
Proof. by intros w. Qed.

Lemma keeps_rw_header_halt {A : Type} (e : Exit) :
  keeps_rw_header (λ w, Halt e w : Result A).
Proof. by intros w. Qed.

Lemma keeps_rw_header_bind {A B : Type} (m : M A) (k : A → M B) :
  keeps_rw_header m → (∀ a, keeps_rw_header (k a)) → keeps_rw_header (m ≫= k).
Proof.
  intros Hm Hk w. rewrite bind_eq. specialize (Hm w).
  destruct (m w) as [a w1|e w1]; [|done].
  specialize (Hk a w1). destruct (k a w1) as [b w2|e w2]; congruence.
Qed.

Lemma keeps_rw_header_get : keeps_rw_header get.
Proof. by intros w. Qed.

Lemma keeps_rw_header_with_task (t : Task) :
  keeps_rw_header (modify (with_task t)).
Proof. by intros w. Qed.

Lemma rw_header_WriteHeader (code : Z) (c : ResponseWriter) :
  rw_header (rw_WriteHeader code c) = rw_header c.
Proof. unfold rw_WriteHeader. by destruct (rw_status c). Qed.

Lemma keeps_rw_header_WriteHeader (code : Z) : keeps_rw_header (WriteHeader code).
Proof. intros w. apply rw_header_WriteHeader. Qed.

Lemma rw_header_Write (b : list byte) (c : ResponseWriter) :
  rw_header (rw_Write b c).1 = rw_header c.
Proof. unfold rw_Write. simpl. apply rw_header_WriteHeader. Qed.

Lemma keeps_rw_header_Write (dst : Writer) (b : list byte) :
  keeps_rw_header (Write dst b).
Proof.
  intros w. pose proof (rw_header_Write b (rw w)) as Hh.
  destruct dst as [|latency]; unfold Write, maxLatencyWriter_Write.
  - rewrite bind_eq. unfold get.
    by destruct (rw_Write b (rw w)) as [c ok].
  - rewrite bind_eq. unfold get at 1.
    assert (Ht : ∃ t, (match task w with
                       | NotStarted => modify (with_task (go_flushLoop latency))
                       | _ => mret tt
                       end) w = Next tt (with_task t w)) .
    { destruct (task w) eqn:Htask; eexists; try reflexivity;
        rewrite ret_eq; f_equal; destruct w; simpl in *; by rewrite Htask. }
    destruct Ht as [t Ht].
    erewrite bind_Next; [|exact Ht].
    erewrite bind_Next; [|reflexivity].
    cbn [rw with_task].
    destruct (rw_Write b (rw w)) as [c ok]. simpl in Hh.
    erewrite bind_Next; [|reflexivity].
    destruct ok; [exact Hh|].
    erewrite bind_Next; [|reflexivity].
    cbn [task with_rw with_task stop_received].
    destruct t; try exact Hh.
    destruct (stop_received w); exact Hh.
Qed.

Lemma keeps_rw_header_set_pending (chunks : list (list byte)) :
  keeps_rw_header (Go_io.set_pending chunks).
Proof. by intros w. Qed.

Lemma keeps_rw_header_Copy_loop (dst : Writer) (chunks : list (list byte)) :
  keeps_rw_header (Go_io.Copy_loop dst chunks).
Proof.
  induction chunks as [|c rest IH]; [apply keeps_rw_header_ret|].
  simpl.
  apply keeps_rw_header_bind; [apply keeps_rw_header_set_pending | intros _].
  destruct (0 <? length c)%nat; [|exact IH].
  apply keeps_rw_header_bind; [apply keeps_rw_header_Write | intros ok].
  destruct ok; [exact IH | apply keeps_rw_header_ret].
Qed.

Lemma keeps_rw_header_Copy (dst : Writer) : keeps_rw_header (Go_io.Copy dst).
Proof.
  unfold Go_io.Copy.
  apply keeps_rw_header_bind; [apply keeps_rw_header_get | intros w0].
  destruct (body w0); [apply keeps_rw_header_Copy_loop | apply keeps_rw_header_halt].
Qed.

Lemma keeps_rw_header_scan_forbiddens (loc : string) (fs : list string) :
  keeps_rw_header (scan_forbiddens loc fs).
Proof.
  induction fs as [|f fs IH]; [apply keeps_rw_header_ret|].
  simpl. destruct (Go_strings.HasPrefix loc f); [|exact IH].
  apply keeps_rw_header_bind; [apply keeps_rw_header_WriteHeader | intros _].
  apply keeps_rw_header_halt.
Qed.

Lemma keeps_rw_header_relay_body (p : ReverseProxy) (res : Response) :
  keeps_rw_header (relay_body p res).
Proof.
  unfold relay_body.
  destruct (Response.Body res); [|apply keeps_rw_header_ret].
  apply keeps_rw_header_bind; [apply keeps_rw_header_get | intros w1].
  apply keeps_rw_header_bind.
  { destruct (_ && _); [|apply keeps_rw_header_ret].
    apply keeps_rw_header_bind; [apply keeps_rw_header_with_task | intros _].
    apply keeps_rw_header_ret. }
  intros dst.
  destruct (Response.StatusCode res =? 200)%Z; [|apply keeps_rw_header_Copy].
  destruct (Response.Header res !! "Content-Type") as [[|ct cts]|];
    [apply keeps_rw_header_halt | | apply keeps_rw_header_Copy].
  destruct (String.eqb ct _); [|apply keeps_rw_header_Copy].
  apply keeps_rw_header_bind.
  { unfold Go_io.ReadAll.
    apply keeps_rw_header_bind; [apply keeps_rw_header_get | intros w2].
    destruct (body w2); [|apply keeps_rw_header_halt].
    apply keeps_rw_header_bind; [apply keeps_rw_header_set_pending | intros _].
    apply keeps_rw_header_ret. }
  intros buf.
  apply keeps_rw_header_bind; [|intros _; apply keeps_rw_header_halt].
  unfold Go_io.Copy_buffer. destruct (0 <? _)%nat; [|apply keeps_rw_header_ret].
  apply keeps_rw_header_bind; [apply keeps_rw_header_Write | intros _].
  apply keeps_rw_header_ret.
Qed.

(** After the headers of the response are copied in, nothing of the
    relay writes to the header map of the client side. *)
Lemma relay_response_rw_header (p : ReverseProxy) (res : Response) (w : World) :
  match relay_response p res w with
  | Next _ w' | Halt _ w' =>
      rw_header (rw w')
      = copyHeader (range_order w) (rw_header (rw w)) (Response.Header res)
  end.
Proof.
  unfold relay_response.
  erewrite bind_Next; [|reflexivity].
  erewrite bind_Next; [|reflexivity].
  set (w1 := with_rw _ w).
  assert (Hk : keeps_rw_header
            ((if bool_decide (Response.StatusCode res ∈ [301; 302; 307]%Z)
              then match Response.Header res !! "Location" with
                   | Some [] => panic
                   | Some (loc :: _) => scan_forbiddens loc (forbiddens p)
                   | None => mret ()
                   end
              else mret ());;
             WriteHeader (Response.StatusCode res);; relay_body p res)).
  { apply keeps_rw_header_bind.
    { destruct (bool_decide _); [|apply keeps_rw_header_ret].
      destruct (Response.Header res !! "Location") as [[|loc locs]|];
        [apply keeps_rw_header_halt | apply keeps_rw_header_scan_forbiddens
        | apply keeps_rw_header_ret]. }
    intros _.
    apply keeps_rw_header_bind; [apply keeps_rw_header_WriteHeader | intros _].
    apply keeps_rw_header_relay_body. }
  specialize (Hk w1).
  match goal with
  | |- match ?X with _ => _ end => destruct X; by rewrite Hk
  end.
Qed.

End keeps_rw_header.

Section no_flush_task.

Lemma no_flush_task_ret {A : Type} (a : A) : no_flush_task (mret a : M A).
Proof. by intros w. Qed.

Lemma no_flush_task_halt {A : Type} (e : Exit) :
  e ≠ Blocked → no_flush_task (λ w, Halt e w : Result A).
Proof. by intros He w. Qed.

Lemma no_flush_task_bind {A B : Type} (m : M A) (k : A → M B) :
  no_flush_task m → (∀ a, no_flush_task (k a)) → no_flush_task (m ≫= k).
Proof.
  intros Hm Hk w. rewrite bind_eq. specialize (Hm w).
  destruct (m w) as [a w1|e w1]; [|done].
  specialize (Hk a w1). destruct (k a w1) as [b w2|e w2]; [congruence|].
  destruct Hk as [Ht He]. split; [congruence | done].
Qed.

Lemma no_flush_task_get : no_flush_task get.
Proof. by intros w. Qed.

Lemma no_flush_task_load_header (r : ref) : no_flush_task (load_header r).
Proof. by intros w. Qed.

Lemma no_flush_task_update_header (r : ref) (f : Header → Header) :
  no_flush_task (update_header r f).
Proof. intros w. unfold update_header. by destruct (hdrs (store w) !! r). Qed.

Lemma no_flush_task_make_header : no_flush_task make_header.
Proof. by intros w. Qed.

Lemma no_flush_task_load_url (r : ref) : no_flush_task (load_url r).
Proof. intros w. unfold load_url. by destruct (urls (store w) !! r). Qed.

Lemma no_flush_task_update_url (r : ref) (f : URL → URL) :
  no_flush_task (update_url r f).
Proof. intros w. unfold update_url. by destruct (urls (store w) !! r). Qed.

Lemma no_flush_task_call_Director (p : ReverseProxy) (req : Request) :
  no_flush_task (call_Director p req).
Proof.
  intros w. unfold call_Director.
  by destruct (Director p req (store w)) as [[outreq σ]|].
Qed.

Lemma no_flush_task_outbound_request (p : ReverseProxy) (req : Request) :
  no_flush_task (outbound_request p req).
Proof.
  unfold outbound_request.
  apply no_flush_task_bind; [apply no_flush_task_call_Director | intros outreq].
  apply no_flush_task_bind; [apply no_flush_task_load_header | intros h].
  apply no_flush_task_bind.
  { destruct (negb _); [|apply no_flush_task_ret].
    apply no_flush_task_bind; [apply no_flush_task_make_header | intros r].
    apply no_flush_task_bind; [apply no_flush_task_load_header | intros src].
    apply no_flush_task_bind; [apply no_flush_task_get | intros w0].
    apply no_flush_task_bind; [apply no_flush_task_update_header | intros _].
    apply no_flush_task_bind; [apply no_flush_task_update_header | intros _].
    apply no_flush_task_ret. }
  intros outreq'.
  apply no_flush_task_bind.
  { destruct (Go_net.SplitHostPort _) as [[clientIp port]|];
      [apply no_flush_task_update_header | apply no_flush_task_ret]. }
  intros _.
  apply no_flush_task_bind; [apply no_flush_task_update_url | intros _].
  apply no_flush_task_bind; [apply no_flush_task_load_url | intros u].
  apply no_flush_task_ret.
Qed.

Lemma no_flush_task_WriteHeader (code : Z) : no_flush_task (WriteHeader code).
Proof. by intros w. Qed.

Lemma no_flush_task_update_rw_header (f : Header → Header) :
  no_flush_task (update_rw_header f).
Proof. by intros w. Qed.

(** A write to the client writer itself. *)
Lemma no_flush_task_Write (b : list byte) : no_flush_task (Write to_rw b).
Proof.
  intros w. unfold Write. rewrite bind_eq. unfold get.
  by destruct (rw_Write b (rw w)) as [c ok].
Qed.

Lemma no_flush_task_set_pending (chunks : list (list byte)) :
  no_flush_task (Go_io.set_pending chunks).
Proof. by intros w. Qed.

Lemma no_flush_task_Copy_loop (chunks : list (list byte)) :
  no_flush_task (Go_io.Copy_loop to_rw chunks).
Proof.
  induction chunks as [|c rest IH]; [apply no_flush_task_ret|].
  simpl.
  apply no_flush_task_bind; [apply no_flush_task_set_pending | intros _].
  destruct (0 <? length c)%nat; [|exact IH].
  apply no_flush_task_bind; [apply no_flush_task_Write | intros ok].
  destruct ok; [exact IH | apply no_flush_task_ret].
Qed.

Lemma no_flush_task_Copy : no_flush_task (Go_io.Copy to_rw).
Proof.
  unfold Go_io.Copy.
  apply no_flush_task_bind; [apply no_flush_task_get | intros w0].
  destruct (body w0); [apply no_flush_task_Copy_loop | by apply no_flush_task_halt].
Qed.

Lemma no_flush_task_scan_forbiddens (loc : string) (fs : list string) :
  no_flush_task (scan_forbiddens loc fs).
Proof.
  induction fs as [|f fs IH]; [apply no_flush_task_ret|].
  simpl. destruct (Go_strings.HasPrefix loc f); [|exact IH].
  apply no_flush_task_bind; [apply no_flush_task_WriteHeader | intros _].
  by apply no_flush_task_halt.
Qed.

Lemma no_flush_task_bind_ret {A B : Type} (a : A) (k : A → M B) :
  no_flush_task (k a) → no_flush_task (mret a ≫= k).
Proof. intros Hk w. exact (Hk w). Qed.

Lemma no_flush_task_relay_body (p : ReverseProxy) (res : Response) :
  FlushInterval p = 0%Z → no_flush_task (relay_body p res).
Proof.
  intros Hfi. unfold relay_body. rewrite Hfi. cbn [Z.eqb negb andb].
  destruct (Response.Body res); [|apply no_flush_task_ret].
  apply no_flush_task_bind; [apply no_flush_task_get | intros w1].
  apply no_flush_task_bind_ret.
  destruct (Response.StatusCode res =? 200)%Z; [|apply no_flush_task_Copy].
  destruct (Response.Header res !! "Content-Type") as [[|ct cts]|];
    [by apply no_flush_task_halt | | apply no_flush_task_Copy].
  destruct (String.eqb ct _); [|apply no_flush_task_Copy].
  apply no_flush_task_bind.
  { unfold Go_io.ReadAll.
    apply no_flush_task_bind; [apply no_flush_task_get | intros w2].
    destruct (body w2); [|by apply no_flush_task_halt].
    apply no_flush_task_bind; [apply no_flush_task_set_pending | intros _].
    apply no_flush_task_ret. }
  intros buf.
  apply no_flush_task_bind; [|intros _; by apply no_flush_task_halt].
  unfold Go_io.Copy_buffer. destruct (0 <? _)%nat; [|apply no_flush_task_ret].
  apply no_flush_task_bind; [apply no_flush_task_Write | intros _].
  apply no_flush_task_ret.
Qed.

Lemma no_flush_task_relay_response (p : ReverseProxy) (res : Response) :
  FlushInterval p = 0%Z → no_flush_task (relay_response p res).
Proof.
  intros Hfi. unfold relay_response.
  apply no_flush_task_bind; [apply no_flush_task_get | intros w0].
  apply no_flush_task_bind; [apply no_flush_task_update_rw_header | intros _].
  apply no_flush_task_bind.
  { destruct (bool_decide _); [|apply no_flush_task_ret].
    destruct (Response.Header res !! "Location") as [[|loc locs]|];
      [by apply no_flush_task_halt | apply no_flush_task_scan_forbiddens
      | apply no_flush_task_ret]. }
  intros _.
  apply no_flush_task_bind; [apply no_flush_task_WriteHeader | intros _].
  by apply no_flush_task_relay_body.
Qed.

Lemma no_flush_task_ServeHTTP (p : ReverseProxy) (req : Request) :
  FlushInterval p = 0%Z → no_flush_task (ServeHTTP p req).
Proof.
  intros Hfi. unfold ServeHTTP.
  apply no_flush_task_bind; [apply no_flush_task_get | intros w0].
  apply no_flush_task_bind; [apply no_flush_task_outbound_request | intros outreq].
  apply no_flush_task_bind; [by intros w | intros [res|]].
  - by apply no_flush_task_relay_response.
  - apply no_flush_task_bind; [apply no_flush_task_WriteHeader | intros _].
    by apply no_flush_task_halt.
Qed.

End no_flush_task.

(** X6.  A proxy whose [FlushInterval] is zero, as [New] leaves it,
    never wraps the client writer in a [maxLatencyWriter]: whatever the
    request, the backend and the client do, the handler does not start a
    flush task and does not block on the channel [done]. *)
Theorem zero_FlushInterval_no_flush_task (p : ReverseProxy) (req : Request)
    (w : World) :
  FlushInterval p = 0%Z →
  ∃ e w',
    run (ServeHTTP p req) w = (e, w') ∧ e ≠ Blocked ∧ task w' = task w.
Proof.
  intros Hfi. pose proof (no_flush_task_ServeHTTP p req Hfi w) as H.
  unfold run. destruct (ServeHTTP p req w) as [[] w'|e w'].
  - by exists Returned, w'.
  - destruct H as [Ht He]. by exists e, w'.
Qed.

Lemma zero_FlushInterval_no_flush_task_witness :
  ∃ e w',
    run (ServeHTTP example_proxy example_request)
        (example_world example_header (backend plain_text_reply) refusing_client)
      = (e, w')
    ∧ e ≠ Blocked ∧ task w' = NotStarted.
Proof.
  apply (zero_FlushInterval_no_flush_task example_proxy example_request
           (example_world example_header (backend plain_text_reply)
              refusing_client)).
  reflexivity.
Defined.

(* ===================================================================== *)
(** ** Responses that are relayed *)
(* ===================================================================== *)



(** The header map of the client side at the end of a cycle in which
    the backend answered. *)
Lemma ServeHTTP_rw_header (p : ReverseProxy) (req outreq : Request)
    (w w1 w' : World) (res : Response) (e : Exit) :
  outbound_request p req w = Next outreq w1 →
  transport_of p w (store w1) outreq = Some res →
  run (ServeHTTP p req) w = (e, w') →
  rw_header (rw w')
  = copyHeader (range_order w) (rw_header (rw w)) (Response.Header res).
Proof.
  intros Hreq Ht.
  pose proof (outbound_request_frame _ _ _ _ _ Hreq) as Hw1.
  assert (Hr : rw w1 = rw w) by (rewrite Hw1; by destruct w).
  assert (Ho : range_order w1 = range_order w) by (rewrite Hw1; by destruct w).
  rewrite (ServeHTTP_after_request _ _ _ _ _ Hreq). cbn zeta. rewrite Ht.
  unfold run.
  pose proof (relay_response_rw_header p res
                (with_body (fresh_body res)
                   (with_sent (sent w ++ [outreq]) w1))) as Hh.
  destruct (relay_response p res _) as [[] w2|e2 w2]; intros [= <- <-];
    rewrite Hh; wsimpl; by rewrite Hr, Ho.
Qed.

(** X7.  Whenever the backend answers, its headers are copied into the
    header map of the client side, and nothing else of the cycle changes
    that map: this holds on every path, also when the handler goes on to
    answer 404 for a filtered redirect. *)
Theorem backend_headers_reach_client (p : ReverseProxy) (req outreq : Request)
    (w w1 : World) (res : Response) :
  outbound_request p req w = Next outreq w1 →
  transport_of p w (store w1) outreq = Some res →
  ∃ e w',
    run (ServeHTTP p req) w = (e, w')
    ∧ rw_header (rw w')
      = copyHeader (range_order w) (rw_header (rw w)) (Response.Header res).
Proof.
  intros Hreq Ht.
  destruct (run (ServeHTTP p req) w) as [e w'] eqn:Hrun.
  exists e, w'. split; [done|]. by eapply ServeHTTP_rw_header.
Qed.

Lemma backend_headers_reach_client_witness :
  ∃ e w',
    run (ServeHTTP example_proxy example_request)
        (example_world example_header (backend redirect_to_evil) fresh_client)
      = (e, w')
    ∧ rw_header (rw w')
      = copyHeader map_to_list ∅ (Response.Header redirect_to_evil).
Proof.
  eapply (backend_headers_reach_client example_proxy example_request _
            (example_world example_header (backend redirect_to_evil)
               fresh_client)).
  - apply (outbound_request_shared example_proxy example_target example_request
             (example_world example_header _ fresh_client)
             example_url example_header); reflexivity.
  - reflexivity.
Defined.






(* ===================================================================== *)
(** ** More on the outbound request *)
(* ===================================================================== *)

(** X10.  The outbound request that reaches the transport is normalised:
    protocol HTTP/1.1, not closing, method and remote address as they
    came in, [Host] and the host of the URL forced to [DomainProxy]
    whatever host the director's target has, scheme of the target, path
    joined with the base path of the target.  Its URL is the URL object
    of the inbound request, rewritten in place. *)
Theorem outbound_request_normalised (p : ReverseProxy) (target u : URL)
    (req : Request) (w : World) (h : Header) :
  Director p = director target →
  urls (store w) !! Request.URL req = Some u →
  hdrs (store w) !! Request.Header req = Some h →
  ∃ e w' outreq u',
    run (ServeHTTP p req) w = (e, w')
    ∧ sent w' = sent w ++ [outreq]
    ∧ Request.Proto outreq = "HTTP/1.1"
    ∧ Request.ProtoMajor outreq = 1%Z
    ∧ Request.ProtoMinor outreq = 1%Z
    ∧ Request.Close outreq = false
    ∧ Request.Host outreq = DomainProxy p
    ∧ Request.Method outreq = Request.Method req
    ∧ Request.RemoteAddr outreq = Request.RemoteAddr req
    ∧ Request.URL outreq = Request.URL req
    ∧ urls (store w') !! Request.URL req = Some u'
    ∧ URL.Host u' = DomainProxy p
    ∧ URL.Scheme u' = URL.Scheme target
    ∧ URL.Path u' = singleJoiningSlash (URL.Path target) (URL.Path u)
    ∧ URL.RawQuery u' = URL.RawQuery target.
Proof.
  intros HD Hu Hh.
  pose proof (lookup_lt_Some _ _ _ Hu) as Hlt.
  destruct (director_assign_fields target u) as (Hsc & _ & Hpa & _ & Hq).
  assert (Hreq : ∃ hdr σh,
             outbound_request p req w
             = Next (outbound_struct p hdr req)
                 (with_store
                    (mkStore σh
                       (<[Request.URL req :=
                            URL.with_Host (DomainProxy p) (director_assign target u)]>
                          (urls (store w)))) w)).
  { destruct (String.eqb_spec (Get h "Connection") "") as [Hc|Hc].
    - eexists _, _. by apply (outbound_request_shared p target req w u h).
    - eexists _, _. by apply (outbound_request_copied p target req w u h). }
  destruct Hreq as (hdr & σh & Hreq).
  destruct (ServeHTTP_store_sent _ _ _ _ _ Hreq) as (e & w' & Hrun & Hst & Hse).
  exists e, w', (outbound_struct p hdr req),
    (URL.with_Host (DomainProxy p) (director_assign target u)).
  split; [done|]. split; [done|].
  do 8 (split; [done|]).
  split; [rewrite Hst; wsimpl; by apply list_lookup_insert_eq|].
  by destruct (director_assign target u).
Qed.

Lemma outbound_request_normalised_witness :
  ∃ e w' outreq u',
    run (ServeHTTP example_proxy example_request)
        (example_world example_header no_backend fresh_client) = (e, w')
    ∧ sent w' = [] ++ [outreq]
    ∧ Request.Proto outreq = "HTTP/1.1"
    ∧ Request.ProtoMajor outreq = 1%Z
    ∧ Request.ProtoMinor outreq = 1%Z
    ∧ Request.Close outreq = false
    ∧ Request.Host outreq = "backend:9000"
    ∧ Request.Method outreq = "GET"
    ∧ Request.RemoteAddr outreq = "1.2.3.4:5678"
    ∧ Request.URL outreq = 0
    ∧ urls (store w') !! 0 = Some u'
    ∧ URL.Host u' = "backend:9000"
    ∧ URL.Scheme u' = "http"
    ∧ URL.Path u' = singleJoiningSlash "" "/dir"
    ∧ URL.RawQuery u' = "".
Proof.
  apply (outbound_request_normalised example_proxy example_target example_url
           example_request
           (example_world example_header no_backend fresh_client)
           example_header); reflexivity.
Defined.

Lemma index_copy_all (range : Header → list (string * list string))
    (h : Header) (k : string) :
  range h ≡ₚ map_to_list h →
  map_Forall (λ key _, CanonicalMIMEHeaderKey key = key) h →
  index (copyHeader range ∅ h) k = index h k.
Proof.
  intros Hperm Hcan. unfold copyHeader. rewrite index_copy_entries.
  - rewrite (list_to_map_proper _ (map_to_list h)), list_to_map_to_list; [done| |done].
    rewrite Hperm. apply NoDup_fst_map_to_list.
  - rewrite Hperm. apply NoDup_fst_map_to_list.
  - rewrite Hperm. apply Forall_forall. intros [key vv] Hin.
    apply elem_of_map_to_list in Hin. by apply (Hcan key vv).
Qed.

(** X11.  When the remote address of the inbound request does not split
    into host and port, no forwarded-for header is written: under every
    key other than [Connection], the header map of the outbound request
    holds the values of the inbound request, a client's own
    [X-Forwarded-For] included. *)
Theorem unparsable_remote_address (p : ReverseProxy) (target u : URL)
    (req : Request) (w : World) (h : Header) :
  Director p = director target →
  urls (store w) !! Request.URL req = Some u →
  hdrs (store w) !! Request.Header req = Some h →
  Go_net.SplitHostPort (Request.RemoteAddr req) = None →
  range_order w h ≡ₚ map_to_list h →
  map_Forall (λ key _, CanonicalMIMEHeaderKey key = key) h →
  ∃ e w' outreq h',
    run (ServeHTTP p req) w = (e, w')
    ∧ sent w' = sent w ++ [outreq]
    ∧ hdrs (store w') !! Request.Header outreq = Some h'
    ∧ ∀ k, k ≠ "Connection" → index h' k = index h k.
Proof.
  intros HD Hu Hh Hs Hperm Hcan.
  pose proof (lookup_lt_Some _ _ _ Hh) as Hlt.
  destruct (String.eqb_spec (Get h "Connection") "") as [Hc|Hc].
  - pose proof (outbound_request_shared p target req w u h HD Hu Hh Hc) as Hreq.
    destruct (ServeHTTP_store_sent _ _ _ _ _ Hreq) as (e & w' & Hrun & Hst & Hse).
    eexists e, w', _, _. split; [exact Hrun|]. split; [exact Hse|].
    rewrite Hst. unfold outbound_struct. wsimpl.
    split; [by apply list_lookup_insert_eq|].
    intros k _. unfold forwarded_for. by rewrite Hs.
  - pose proof (outbound_request_copied p target req w u h HD Hu Hh Hc) as Hreq.
    destruct (ServeHTTP_store_sent _ _ _ _ _ Hreq) as (e & w' & Hrun & Hst & Hse).
    eexists e, w', _, _. split; [exact Hrun|]. split; [exact Hse|].
    rewrite Hst. unfold outbound_struct. wsimpl.
    split; [by apply list_lookup_middle|].
    intros k Hk. unfold forwarded_for. rewrite Hs.
    rewrite <- (index_copy_all (range_order w) h k Hperm Hcan).
    unfold Del, index.
    change (CanonicalMIMEHeaderKey "Connection") with "Connection".
    by rewrite lookup_delete_ne.
Qed.

Lemma unparsable_remote_address_witness :
  ∃ e w' outreq h',
    run (ServeHTTP example_proxy
           (Request.mk "GET" 0 "HTTP/1.0" 1 0 0 true "example.com" "@"))
        (example_world {[ "X-Forwarded-For" := ["6.6.6.6"] ]}
           no_backend fresh_client)
      = (e, w')
    ∧ sent w' = [] ++ [outreq]
    ∧ hdrs (store w') !! Request.Header outreq = Some h'
    ∧ ∀ k, k ≠ "Connection" →
           index h' k = index ({[ "X-Forwarded-For" := ["6.6.6.6"] ]} : Header) k.
Proof.
  apply (unparsable_remote_address example_proxy example_target example_url
           (Request.mk "GET" 0 "HTTP/1.0" 1 0 0 true "example.com" "@")
           (example_world {[ "X-Forwarded-For" := ["6.6.6.6"] ]}
              no_backend fresh_client)
           {[ "X-Forwarded-For" := ["6.6.6.6"] ]});
    try reflexivity.
  by apply map_Forall_singleton.
Defined.

(** With an empty base path, which is what a target without a path has,
    an inbound path that starts with a slash is forwarded as it is. *)
Lemma singleJoiningSlash_empty_base (b : string) :
  singleJoiningSlash "" b
  = if Go_strings.HasPrefix b "/" then b else "/" +:+ b.
Proof.
  unfold singleJoiningSlash. rewrite HasSuffix_empty. cbn [andb negb].
  by destruct (Go_strings.HasPrefix b "/").
Qed.

(* ===================================================================== *)
(** ** A client that stops taking bytes *)
(* ===================================================================== *)

Section limited_client.






End limited_client.



(* ===================================================================== *)
(** ** The constructor and the handler of the main package *)
(* ===================================================================== *)

Section program_facts.

Context (url_Parse : string → option URL).

(** What [New] returns. *)
Lemma New_Some (domainProxy domain : string) (p : ReverseProxy) :
  New url_Parse domainProxy domain = Some p →
  (∃ u, url_Parse ("http://" +:+ domainProxy) = Some u ∧ Director p = director u)
  ∧ Transport p = None
  ∧ FlushInterval p = 0%Z
  ∧ DomainProxy p = domainProxy
  ∧ Domain p = domain
  ∧ forbiddens p = [].
Proof.
  unfold New. destruct (url_Parse _) as [u|]; [|done].
  simpl. intros [= <-]. simpl. split; [by exists u | done].
Qed.

Lemma filtered_nil (p : ReverseProxy) (res : Response) :
  forbiddens p = [] → filtered p res = false.
Proof.
  intros Hf. unfold filtered. rewrite Hf.
  destruct (bool_decide _); [|done].
  by destruct (Response.Header res !! "Location") as [[|loc locs]|].
Qed.

Lemma greetA_ServeHTTP (p : ReverseProxy) (req : Request) (w : World) :
  New url_Parse "localhost:80" "" = Some p →
  run (greetA url_Parse req) w = run (ServeHTTP p req) w.
Proof. intros Hp. unfold greetA. by rewrite Hp. Qed.

End program_facts.

(** X13.  The handler [greetA] of the main program makes a new proxy for
    every request and never calls [Forbidden], so its filter is empty:
    whatever the backend answers, a redirect to any location included,
    the client gets the status of the backend; and since [New] leaves
    the flush interval at zero no flush task is started. *)
Theorem greetA_filters_nothing (url_Parse : string → option URL)
    (p : ReverseProxy) (req outreq : Request) (w w1 : World) (res : Response) :
  New url_Parse "localhost:80" "" = Some p →
  outbound_request p req w = Next outreq w1 →
  DefaultTransport w (store w1) outreq = Some res →
  well_formed_reply (Some res) →
  rw_status (rw w) = None →
  client_accepts_all w →
  ∃ w',
    run (greetA url_Parse req) w = (Returned, w')
    ∧ rw_status (rw w') = Some (Response.StatusCode res)
    ∧ task w' = task w.
Proof.
  intros Hp Hreq Ht [Hloc Hct] Hfresh Hroom.
  destruct (New_Some _ _ _ _ Hp) as (_ & Htr & Hfi & _ & _ & Hfs).
  rewrite (greetA_ServeHTTP _ _ _ _ Hp).
  destruct (ServeHTTP_relayed p req outreq w w1 res)
    as (w' & Hrun & Hst & _); auto.
  - unfold transport_of. by rewrite Htr.
  - by apply filtered_nil.
  - exists w'. split; [done|]. split; [done|].
    pose proof (no_flush_task_ServeHTTP p req Hfi w) as Hn.
    unfold run in Hrun. destruct (ServeHTTP p req w) as [[] w2|e w2].
    + injection Hrun as <-. done.
    + injection Hrun as -> <-. by destruct Hn.
Qed.

Lemma greetA_filters_nothing_witness :
  ∃ w',
    run (greetA example_parse example_request)
        (example_world example_header (backend redirect_to_evil) fresh_client)
      = (Returned, w')
    ∧ rw_status (rw w') = Some 302%Z
    ∧ task w' = NotStarted.
Proof.
  eapply (greetA_filters_nothing example_parse _ example_request _
            (example_world example_header (backend redirect_to_evil) fresh_client)
            _ redirect_to_evil).
  - reflexivity.
  - apply (outbound_request_shared _ (URL.mk "http" "localhost:80" "" "" "")
             example_request
             (example_world example_header _ fresh_client)
             example_url example_header); reflexivity.
  - reflexivity.
  - split; vm_compute; discriminate.
  - reflexivity.
  - reflexivity.
Defined.

(** X14.  [greetA] builds its proxy with the empty string for the public
    domain: in a plain-text body (status 200, content type exactly
    [text/plain; charset=utf-8]) every occurrence of [localhost:80] is
    deleted, and the rest of the body reaches the client unchanged. *)
Theorem greetA_deletes_backend_address (url_Parse : string → option URL)
    (p : ReverseProxy) (req outreq : Request) (w w1 : World) (res : Response)
    (chunks : list (list byte)) (cts : list string) :
  New url_Parse "localhost:80" "" = Some p →
  outbound_request p req w = Next outreq w1 →
  DefaultTransport w (store w1) outreq = Some res →
  Response.StatusCode res = 200%Z →
  Response.Header res !! "Content-Type"
    = Some ("text/plain; charset=utf-8" :: cts) →
  Response.Body res = Some chunks →
  rw_status (rw w) = None →
  client_accepts_all w →
  ∃ w' out,
    run (greetA url_Parse req) w = (Returned, w')
    ∧ rw_body (rw w') = rw_body (rw w) ++ out
    ∧ ReplacedAll (list_byte_of_string "localhost:80") [] (concat chunks) out
        (Go_bytes.Count (concat chunks) (list_byte_of_string "localhost:80")).
Proof.
  intros Hp Hreq Ht Hst Hct Hbody Hfresh Hroom.
  destruct (New_Some _ _ _ _ Hp) as (_ & Htr & _ & Hdp & Hd & Hfs).
  rewrite (greetA_ServeHTTP _ _ _ _ Hp).
  destruct (ServeHTTP_relayed p req outreq w w1 res)
    as (w' & Hrun & _ & Hbd & _); auto.
  - unfold transport_of. by rewrite Htr.
  - by apply filtered_nil.
  - rewrite Hst. intros Hin. by apply (bool_decide_pack _) in Hin.
  - unfold indexable. by rewrite Hct.
  - exists w', (relayed_bytes p res). split; [done|]. split; [done|].
    unfold relayed_bytes, text_plain, body_bytes.
    rewrite Hbody, Hst, Hct, Hdp, Hd. simpl.
    by apply Replace_all_spec.
Qed.

Lemma greetA_deletes_backend_address_witness :
  ∃ w' out,
    run (greetA example_parse example_request)
        (example_world example_header
           (backend (Response.mk 200
                       {[ "Content-Type" := ["text/plain; charset=utf-8"] ]}
                       (Some [list_byte_of_string "at localhost:80!"])))
           fresh_client)
      = (Returned, w')
    ∧ rw_body (rw w') = [] ++ out
    ∧ ReplacedAll (list_byte_of_string "localhost:80") []
        (concat [list_byte_of_string "at localhost:80!"]) out
        (Go_bytes.Count (concat [list_byte_of_string "at localhost:80!"])
           (list_byte_of_string "localhost:80")).
Proof.
  eapply (greetA_deletes_backend_address example_parse _ example_request _
            (example_world example_header _ fresh_client) _ _ _ []).
  - reflexivity.
  - apply (outbound_request_shared _ (URL.mk "http" "localhost:80" "" "" "")
             example_request
             (example_world example_header _ fresh_client)
             example_url example_header); reflexivity.
  - reflexivity.
  - reflexivity.
  - reflexivity.
  - reflexivity.
  - reflexivity.
  - reflexivity.
Defined.

(* ===================================================================== *)
(** ** One send, a malformed redirect, and the flush task of a relay *)
(* ===================================================================== *)

(** X15.  In every cycle, however it ends, the handler hands at most one
    request to the transport: there is no retry on any path. *)
Theorem at_most_one_send (p : ReverseProxy) (req : Request) (w : World) :
  ∃ e w',
    run (ServeHTTP p req) w = (e, w')
    ∧ (sent w' = sent w ∨ ∃ outreq, sent w' = sent w ++ [outreq]).
Proof.
  destruct (outbound_request p req w) as [outreq w1|e w1] eqn:Hreq.
  - destruct (ServeHTTP_store_sent _ _ _ _ _ Hreq) as (e & w' & Hrun & _ & Hse).
    exists e, w'. split; [done|]. right. by exists outreq.
  - pose proof (store_only_outbound_request p req w) as Hs. rewrite Hreq in Hs.
    exists e, w1. split.
    + unfold run, ServeHTTP. erewrite bind_Next; [|reflexivity].
      by erewrite bind_Halt.
    + left. rewrite Hs. by destruct w.
Qed.

(** X16.  A redirect (301, 302, 307) whose [Location] header is bound to
    an empty list of values makes the handler panic at [l[0]], after the
    headers were copied and before any status line or body byte is
    written. *)
Theorem empty_Location_panics (p : ReverseProxy) (req outreq : Request)
    (w w1 : World) (res : Response) :
  outbound_request p req w = Next outreq w1 →
  transport_of p w (store w1) outreq = Some res →
  Response.StatusCode res ∈ [301; 302; 307]%Z →
  Response.Header res !! "Location" = Some [] →
  ∃ w',
    run (ServeHTTP p req) w = (Panicked, w')
    ∧ rw_status (rw w') = rw_status (rw w)
    ∧ rw_body (rw w') = rw_body (rw w).
Proof.
  intros Hreq Ht Hst Hloc.
  pose proof (outbound_request_frame _ _ _ _ _ Hreq) as Hw1.
  assert (Hr : rw w1 = rw w) by (rewrite Hw1; by destruct w).
  rewrite (ServeHTTP_after_request _ _ _ _ _ Hreq). cbn zeta. rewrite Ht.
  unfold run, relay_response.
  erewrite bind_Next; [|reflexivity].
  erewrite bind_Next; [|reflexivity].
  rewrite bool_decide_eq_true_2, Hloc by done.
  erewrite bind_Halt; [|reflexivity].
  eexists. split; [reflexivity|]. wsimpl. by rewrite Hr.
Qed.

Lemma empty_Location_panics_witness :
  ∃ w',
    run (ServeHTTP example_proxy example_request)
        (example_world example_header
           (backend (Response.mk 301 {[ "Location" := [] ]} None))
           fresh_client)
      = (Panicked, w')
    ∧ rw_status (rw w') = None
    ∧ rw_body (rw w') = [].
Proof.
  eapply (empty_Location_panics example_proxy example_request _
            (example_world example_header _ fresh_client) _
            (Response.mk 301 {[ "Location" := [] ]} None)).
  - apply (outbound_request_shared example_proxy example_target example_request
             (example_world example_header _ fresh_client)
             example_url example_header); reflexivity.
  - reflexivity.
  - apply (bool_decide_unpack _). by vm_compute.
  - reflexivity.
Defined.

Section relay_through_maxLatencyWriter.

Variable latency : Z.

(** A write through the [maxLatencyWriter] that the client takes: the
    flush task was started afterwards, by this write or by an earlier
    one. *)
Lemma maxLatencyWriter_Write_unlimited (b : list byte) (w : World) (code : Z) :
  rw_room (rw w) = None →
  rw_status (rw w) = Some code →
  task w = NotStarted ∨ task w = go_flushLoop latency →
  ∃ w',
    Write (to_maxLatencyWriter latency) b w = Next true w'
    ∧ rw_room (rw w') = None
    ∧ rw_status (rw w') = Some code
    ∧ body w' = body w
    ∧ task w' = go_flushLoop latency.
Proof.
  intros Hroom Hst Htask. unfold Write, maxLatencyWriter_Write.
  erewrite bind_Next; [|reflexivity].
  assert (Ht : (match task w with
                | NotStarted => modify (with_task (go_flushLoop latency))
                | _ => mret tt
                end) w = Next tt (with_task (go_flushLoop latency) w)).
  { destruct Htask as [Hx|Hx]; [by rewrite Hx|].
    destruct (task w) eqn:Hy; [done|..];
      rewrite ret_eq; f_equal; destruct w; simpl in *; by rewrite Hy, Hx. }
  erewrite bind_Next; [|exact Ht].
  erewrite bind_Next; [|reflexivity].
  wsimpl. rewrite (rw_Write_unlimited _ _ _ Hroom Hst).
  erewrite bind_Next; [|reflexivity].
  eexists. split; [reflexivity|]. by wsimpl.
Qed.

Lemma Copy_loop_task (chunks : list (list byte)) (w : World) (r : Reader)
    (code : Z) :
  rw_room (rw w) = None →
  rw_status (rw w) = Some code →
  body w = Some r →
  task w = NotStarted ∨ task w = go_flushLoop latency →
  ∃ w',
    Go_io.Copy_loop (to_maxLatencyWriter latency) chunks w = Next tt w'
    ∧ task w' = if decide (concat chunks = []) then task w
                else go_flushLoop latency.
Proof.
  revert w r. induction chunks as [|c rest IH]; intros w r Hroom Hst Hb Htask.
  - by exists w.
  - cbn [Go_io.Copy_loop concat].
    erewrite bind_Next; [|reflexivity].
    set (w1 := with_body _ w).
    assert (Hb1 : body w1 = Some (mkReader rest (closed r)))
      by (subst w1; wsimpl; by rewrite Hb).
    destruct (0 <? length c)%nat eqn:Hlen.
    + destruct (maxLatencyWriter_Write_unlimited c w1 code)
        as (w2 & Hw & Hr2 & Hs2 & Hb2 & Ht2); [done..|].
      erewrite bind_Next; [|exact Hw].
      rewrite Hb1 in Hb2.
      destruct (IH w2 _ Hr2 Hs2 Hb2) as (w' & Hrun & Ht'); [by right|].
      exists w'. split; [done|]. rewrite Ht', Ht2.
      apply Nat.ltb_lt in Hlen.
      destruct c as [|b0 c]; [simpl in Hlen; lia|].
      destruct (decide ((b0 :: c) ++ concat rest = [])) as [Hnil|_]; [done|].
      by destruct (decide _).
    + apply Nat.ltb_ge in Hlen. destruct c; [|simpl in Hlen; lia].
      destruct (IH w1 _ Hroom Hst Hb1 Htask) as (w' & Hrun & Ht').
      exists w'. by split.
Qed.

End relay_through_maxLatencyWriter.

(** The relay of a body that is not empty, through the
    [maxLatencyWriter]. *)
Lemma relay_body_task (p : ReverseProxy) (res : Response) (w : World)
    (code : Z) :
  FlushInterval p ≠ 0%Z →
  rw_flusher (rw w) = true →
  rw_room (rw w) = None →
  rw_status (rw w) = Some code →
  body w = fresh_body res →
  indexable res "Content-Type" →
  relayed_bytes p res ≠ [] →
  ∃ w', run (relay_body p res) w = (Returned, w')
        ∧ task w' = go_flushLoop (FlushInterval p).
Proof.
  intros Hfi Hfl Hroom Hst Hb Hix Hne.
  unfold relay_body, relayed_bytes, text_plain, body_bytes, run,
    fresh_body, indexable in *.
  destruct (Response.Body res) as [chunks|]; [|done].
  cbn [default from_option id fmap option_fmap option_map] in *.
  erewrite bind_Next; [|reflexivity].
  apply Z.eqb_neq in Hfi. rewrite Hfi, Hfl. cbn [negb andb].
  erewrite bind_Next; [|by erewrite bind_Next].
  set (w1 := with_task NotStarted w).
  assert (Hcopy : concat chunks ≠ [] →
             ∃ w',
               match Go_io.Copy (to_maxLatencyWriter (FlushInterval p)) w1 with
               | Next _ w' => (Returned, w')
               | Halt e w' => (e, w')
               end = (Returned, w')
               ∧ task w' = go_flushLoop (FlushInterval p)).
  { intros Hcc. unfold Go_io.Copy. erewrite bind_Next; [|reflexivity].
    replace (body w1) with (Some (mkReader chunks false)) by (by rewrite <- Hb).
    cbn [pending].
    destruct (Copy_loop_task (FlushInterval p) chunks w1
                (mkReader chunks false) code)
      as (w' & Hrun & Ht); try done; [by left|].
    exists w'. rewrite Hrun. split; [done|].
    rewrite Ht. by rewrite decide_False. }
  destruct (Response.StatusCode res =? 200)%Z; cbn [andb] in *; [|by apply Hcopy].
  destruct (Response.Header res !! "Content-Type") as [[|ct cts]|];
    [done | | by apply Hcopy].
  destruct (String.eqb ct _); [|by apply Hcopy].
  unfold Go_io.ReadAll.
  erewrite bind_Next; last first.
  { erewrite bind_Next; [|reflexivity].
    replace (body w1) with (Some (mkReader chunks false)) by (by rewrite <- Hb).
    erewrite bind_Next; [|reflexivity]. reflexivity. }
  cbn [pending].
  set (w2 := with_body _ w1).
  set (b := Go_bytes.Replace _ _ _ _) in *.
  unfold Go_io.Copy_buffer.
  destruct (0 <? length b)%nat eqn:Hlen.
  - destruct (maxLatencyWriter_Write_unlimited (FlushInterval p) b w2 code)
      as (w3 & Hw & _ & _ & _ & Ht3); try done; [by left|].
    erewrite bind_Next; last first.
    { erewrite bind_Next; [|exact Hw]. reflexivity. }
    by exists w3.
  - apply Nat.ltb_ge in Hlen. destruct b; [done | simpl in Hlen; lia].
Qed.

(** X17.  With a positive flush interval and a client writer that can
    flush, every body that is relayed goes through the
    [maxLatencyWriter], the body of the text substitution too: when the
    handler returns after relaying at least one byte to a client that
    took every write, the flush task that the first write started is
    still running. *)
Theorem relay_leaves_flush_task_running (p : ReverseProxy)
    (req outreq : Request) (w w1 : World) (res : Response) :
  outbound_request p req w = Next outreq w1 →
  transport_of p w (store w1) outreq = Some res →
  filtered p res = false →
  well_formed_reply (Some res) →
  (0 < FlushInterval p)%Z →
  rw_flusher (rw w) = true →
  rw_status (rw w) = None →
  client_accepts_all w →
  relayed_bytes p res ≠ [] →
  ∃ w', run (ServeHTTP p req) w = (Returned, w') ∧ task w' = Running.
Proof.
  intros Hreq Ht Hf [Hloc Hct] Hfi Hfl Hfresh Hroom Hne.
  pose proof (outbound_request_frame _ _ _ _ _ Hreq) as Hw1.
  assert (Hr : rw w1 = rw w) by (rewrite Hw1; by destruct w).
  rewrite (ServeHTTP_after_request _ _ _ _ _ Hreq). cbn zeta. rewrite Ht.
  unfold run at 1. rewrite relay_response_pass by auto.
  set (w2 := with_rw _ _).
  destruct (relay_body_task p res w2 (Response.StatusCode res))
    as (w' & Hrun & Htask); try done.
  - lia.
  - subst w2. unfold relay_headers, rw_WriteHeader. wsimpl.
    rewrite Hr, Hfresh. wsimpl. exact Hfl.
  - subst w2. unfold relay_headers, rw_WriteHeader. wsimpl.
    rewrite Hr, Hfresh. wsimpl. exact Hroom.
  - subst w2. unfold relay_headers, rw_WriteHeader. wsimpl.
    rewrite Hr, Hfresh. by wsimpl.
  - exists w'. unfold run in Hrun. rewrite Hrun. split; [done|].
    rewrite Htask. unfold go_flushLoop.
    by destruct (Z.ltb_spec 0 (FlushInterval p)); [|lia].
Qed.

Lemma relay_leaves_flush_task_running_witness :
  ∃ w',
    run (ServeHTTP flushing_proxy example_request)
        (example_world example_header (backend plain_text_reply) fresh_client)
      = (Returned, w')
    ∧ task w' = Running.
Proof.
  eapply (relay_leaves_flush_task_running flushing_proxy example_request _
            (example_world example_header (backend plain_text_reply) fresh_client)
            _ plain_text_reply).
  - apply (outbound_request_shared flushing_proxy example_target example_request
             (example_world example_header _ fresh_client)
             example_url example_header); reflexivity.
  - reflexivity.
  - reflexivity.
  - split; vm_compute; discriminate.
  - reflexivity.
  - reflexivity.
  - reflexivity.
  - reflexivity.
  - by vm_compute.
Defined.
